(** * Shallow embedding of [h/schemas/base.py]

    Python dictionaries are modelled as association lists kept in
    insertion order; a [dict] assignment to an existing key overwrites the
    entry in place and a new key is appended, as CPython does. *)

From Stdlib Require Import String Ascii List ZArith Lia Bool.
From Stdlib Require Import Numbers.DecimalString.
Import ListNotations.
Open Scope string_scope.
#[local] Set Warnings "-register-all".

(* ------------------------------------------------------------------ *)
(** ** Python dictionaries as ordered association lists *)

Module PyDict.

(** [d.get(k)] *)
Fixpoint get {V} (k : string) (d : list (string * V)) : option V :=
  match d with
  | [] => None
  | (k', v) :: r => if String.eqb k k' then Some v else get k r
  end.

(** [d[k] = v]: overwrite in place, or append a new key. *)
Fixpoint set {V} (k : string) (v : V) (d : list (string * V)) : list (string * V) :=
  match d with
  | [] => [(k, v)]
  | (k', v') :: r => if String.eqb k k' then (k', v) :: r else (k', v') :: set k v r
  end.

(** [k in d] *)
Definition mem {V} (k : string) (d : list (string * V)) : bool :=
  existsb (fun kv => String.eqb k (fst kv)) d.

(** [d.update(e)] *)
Definition update {V} (d e : list (string * V)) : list (string * V) :=
  fold_left (fun acc kv => set (fst kv) (snd kv) acc) e d.

End PyDict.

(** A string made of the double-quote character. *)
Definition dq : string := String (ascii_of_nat 34) EmptyString.

(** [sep.join(l)] *)
Fixpoint join (sep : string) (l : list string) : string :=
  match l with
  | [] => ""
  | [s] => s
  | s :: r => s ++ sep ++ join sep r
  end.

(* ------------------------------------------------------------------ *)
(** ** Enumerations and the [enum_type] adapter *)

(** A Python value carried by an enum member. *)
Inductive pyval :=
| PInt (z : Z)
| PStr (s : string).

(** Truthiness of a plain value ([bool(x)]). *)
Definition pyval_truthy (v : pyval) : bool :=
  match v with
  | PInt z => negb (Z.eqb z 0)
  | PStr s => negb (String.eqb s "")
  end.

Record member := Member { mname : string; mvalue : pyval }.

(** A plain [enum.Enum] has truthy members; an enum mixed with [int] or
    [str] ([IntEnum] and the like) takes the truthiness of the mixed-in
    value. *)
Inductive enum_base := PlainEnum | MixedEnum.

(** An enum class: its base and its [_member_map_] (name -> member;
    an alias name maps to its canonical member). *)
Record enum_cls := EnumCls { ebase : enum_base; member_map : list (string * member) }.

Definition member_truthy (e : enum_cls) (m : member) : bool :=
  match ebase e with
  | PlainEnum => true
  | MixedEnum => pyval_truthy (mvalue m)
  end.

(** A member of the enum in the sense of iteration: a canonical member,
    listed under its own name. *)
Definition is_member (e : enum_cls) (m : member) : Prop :=
  PyDict.get (mname m) (member_map e) = Some m.

(** The keys of a list are distinct. *)
Fixpoint nodupb (ks : list string) : bool :=
  match ks with
  | [] => true
  | k :: r => negb (existsb (String.eqb k) r) && nodupb r
  end.

(** Names of a Python enum are distinct, non-empty identifiers. *)
Definition enum_wf (e : enum_cls) : bool :=
  nodupb (map fst (member_map e))
  && forallb (fun kv => negb (String.eqb (fst kv) "")) (member_map e).

(** colander schema types used by the schemas of the repository. *)
Inductive typ :=
| TString
| TInt
| TBool
| TEnum (e : enum_cls)
| TSequence (elem : typ).

Record schema_node := SchemaNode {
  node_name : string;
  node_typ : typ;
  node_required : bool }.

(** A mapping schema is the ordered list of its child nodes. *)
Definition schema := list schema_node.

(** [schema.get(name)] *)
Fixpoint schema_get (s : schema) (k : string) : option schema_node :=
  match s with
  | [] => None
  | n :: r => if String.eqb (node_name n) k then Some n else schema_get r k
  end.

(** A cstruct: [colander.null], a string, or a list of strings. *)
Inductive cstruct :=
| CNull
| CStr (s : string)
| CList (l : list string).

(** The result of a colander type's [deserialize]: a value, a raised
    [colander.Invalid(node, msg)], or another exception ([TypeError]). *)
Inductive outcome (A : Type) :=
| Ok (a : A)
| Invalid (n : schema_node) (msg : string)
| TypeErr.
Arguments Ok {A} a.
Arguments Invalid {A} n msg.
Arguments TypeErr {A}.

(** An appstruct handed to [EnumType.serialize]. *)
Inductive appstruct :=
| ANone
| ANull
| AMember (m : member).

Module EnumType.
Section EnumType.
Variable enum_cls : enum_cls.

(** [enum_cls[cstruct]]: lookup by name in [_member_map_]; a list is
    unhashable and raises [TypeError], a missing name raises [KeyError]
    (here [None]). *)
Definition getitem (c : cstruct) : option (option member) :=
  match c with
  | CStr s => Some (PyDict.get s (member_map enum_cls))
  | _ => None
  end.

(** [EnumType.deserialize] *)
Definition deserialize (node : schema_node) (c : cstruct) : outcome (option member) :=
  match c with
  | CNull => Ok None
  | _ =>
    match getitem c with
    | Some (Some m) => Ok (Some m)
    | Some None =>
      let tok := match c with CStr s => s | _ => "" end in
      Invalid node (dq ++ tok ++ dq ++ " is not a known value")
    | None => TypeErr
    end
  end.

(** [not appstruct] *)
Definition falsy (a : appstruct) : bool :=
  match a with
  | ANone | ANull => true
  | AMember m => negb (member_truthy enum_cls m)
  end.

(** [EnumType.serialize] *)
Definition serialize (node : schema_node) (a : appstruct) : string :=
  if falsy a then ""
  else match a with AMember m => mname m | _ => "" end.

End EnumType.
End EnumType.

(* ------------------------------------------------------------------ *)
(** ** [combine_repeated_fields] *)

(** A [webob.multidict.MultiDict]: ordered pairs, keys may repeat. *)
Definition multidict := list (string * string).

(** [MultiDict.dict_of_lists()]: [r.setdefault(k, []).append(v)] over
    the items in order. *)
Definition dict_of_lists (d : multidict) : list (string * list string) :=
  fold_left
    (fun (r : list (string * list string)) (kv : string * string) =>
       let '(k, v) := kv in
       match PyDict.get k r with
       | Some vs => PyDict.set k (vs ++ [v])%list r
       | None => PyDict.set k [v] r
       end) d [].

Definition is_sequence (t : typ) : bool :=
  match t with TSequence _ => true | _ => false end.

(** [values[-1]]; the lists built by [dict_of_lists] are never empty. *)
Definition last_value (vs : list string) : string := last vs "".

(** [combine_repeated_fields(schema, data)] *)
Definition combine_repeated_fields (s : schema) (data : multidict) : list (string * cstruct) :=
  map (fun kvs =>
         let '(key, values) := kvs in
         match schema_get s key with
         | Some node =>
           if is_sequence (node_typ node) then (key, CList values)
           else (key, CStr (last_value values))
         | None => (key, CStr (last_value values))
         end)
      (dict_of_lists data).

(* ------------------------------------------------------------------ *)
(** ** [colander.Invalid] and [validate_query_params] *)

(** A [colander.Invalid]: the name of the node that raised it, its own
    message, and its child exceptions. *)
Inductive invalid := InvalidExc {
  inv_name : string;
  inv_msg : string;
  inv_children : list invalid }.

(** The line separator ["\n"]. *)
Definition nl : string := String (ascii_of_nat 10) EmptyString.

(** A value produced by a schema's [deserialize]. *)
Inductive pyout :=
| ONone
| OInt (z : Z)
| OBool (b : bool)
| OStr (s : string)
| OEnum (m : member)
| OList (l : list pyout).

(** The outcome of [validate_query_params]: the deserialized mapping, or
    a raised [ValidationError(msg)]. *)
Inductive vqp_result :=
| VOk (r : list (string * pyout))
| VValidationError (msg : string).

Section QueryParams.

(** [Invalid.asdict()], computed by colander from the exception tree. *)
Variable asdict : invalid -> list (string * string).

(** [_colander_exception_msg(exc)] *)
Definition colander_exception_msg (exc : invalid) : string :=
  let msg_dict :=
    fold_left (fun d child => PyDict.update d (asdict child)) (inv_children exc) (asdict exc) in
  let msg_list := map (fun fe => fst fe ++ ": " ++ snd fe) msg_dict in
  join nl msg_list.

(** The schema's [deserialize] on the combined mapping: a result or a
    raised [colander.Invalid]. *)
Variable schema_deserialize : schema -> list (string * cstruct) -> invalid + list (string * pyout).

(** [validate_query_params(schema, params)] *)
Definition validate_query_params (s : schema) (params : multidict) : vqp_result :=
  let combined_params := combine_repeated_fields s params in
  match schema_deserialize s combined_params with
  | inr r => VOk r
  | inl exc => VValidationError (colander_exception_msg exc)
  end.

End QueryParams.

(* ------------------------------------------------------------------ *)
(** ** The schema engine's [deserialize] *)

Module MappingDeserialize.

(** Modelled from the spec: the [deserialize] of a colander mapping
    schema (colander is an external library, and the concrete search
    schema of the repository is not among the sources). Spec 4.5 step 3:
    numeric strings become numbers, boolean strings become booleans, enum
    tokens become members through [EnumType.deserialize]; sequences are
    deserialized element by element; unknown keys are dropped; an absent
    field is an error only when its node is required. *)

(** [int(s)] on a decimal string. *)
Definition py_int (s : string) : option Z :=
  match s with
  | EmptyString => None
  | _ => option_map Z.of_int (NilEmpty.int_of_string s)
  end.

Definition err (n : schema_node) (msg : string) : invalid := InvalidExc (node_name n) msg [].

Fixpoint typ_deserialize (n : schema_node) (t : typ) (c : cstruct) : invalid + pyout :=
  match t, c with
  | TString, CStr s => inr (OStr s)
  | TInt, CStr s =>
    match py_int s with
    | Some z => inr (OInt z)
    | None => inl (err n (dq ++ s ++ dq ++ " is not a number"))
    end
  | TBool, CStr s =>
    if String.eqb s "true" then inr (OBool true)
    else if String.eqb s "false" then inr (OBool false)
    else inl (err n (dq ++ s ++ dq ++ " is neither in (false) nor in (true)"))
  | TEnum e, _ =>
    match EnumType.deserialize e n c with
    | Ok (Some m) => inr (OEnum m)
    | Ok None => inr ONone
    | Invalid n' msg => inl (err n' msg)
    | TypeErr => inl (err n "not a string")
    end
  | TSequence t', CList l =>
    let fix go (l : list string) : invalid + list pyout :=
      match l with
      | [] => inr []
      | s :: r =>
        match typ_deserialize n t' (CStr s), go r with
        | inr v, inr vs => inr (v :: vs)
        | inl e, _ => inl e
        | _, inl e => inl e
        end
      end in
    match go l with inr vs => inr (OList vs) | inl e => inl e end
  | _, CNull => inl (err n "Required")
  | _, _ => inl (err n "Invalid value")
  end.

(** The mapping: every child node in schema order; errors of all
    children are collected under one exception. *)
Definition deserialize (s : schema) (m : list (string * cstruct)) : invalid + list (string * pyout) :=
  let step (acc : list invalid * list (string * pyout)) (n : schema_node) :=
    let '(errs, out) := acc in
    match PyDict.get (node_name n) m with
    | None =>
      if node_required n then (errs ++ [err n "Required"], out)%list else (errs, out)
    | Some c =>
      match typ_deserialize n (node_typ n) c with
      | inr v => (errs, out ++ [(node_name n, v)])%list
      | inl e => (errs ++ [e], out)%list
      end
    end in
  let '(errs, out) := fold_left step s ([], []) in
  match errs with
  | [] => inr out
  | _ => inl (InvalidExc "" "" errs)
  end.

End MappingDeserialize.

(* ------------------------------------------------------------------ *)
(** ** JSON documents *)

(** A parsed JSON document. *)
Inductive doc :=
| JNull
| JBool (b : bool)
| JNum (z : Z)
| JStr (s : string)
| JArr (l : list doc)
| JObj (l : list (string * doc)).

(** A component of a [jsonschema] error path: a key or a list index. *)
Inductive pathc :=
| PKey (s : string)
| PIdx (n : nat).

(** [str(c)] *)
Definition pathc_str (c : pathc) : string :=
  match c with
  | PKey s => s
  | PIdx n => NilEmpty.string_of_uint (Nat.to_uint n)
  end.

(** A [jsonschema.ValidationError]: its [path] and [message]. *)
Record jerror := JError { epath : list pathc; emessage : string }.

(** [_format_jsonschema_error(error)] *)
Definition format_jsonschema_error (e : jerror) : string :=
  match epath e with
  | [] => emessage e
  | _ :: _ =>
    let dotted_path := join "." (map pathc_str (epath e)) in
    dotted_path ++ ": " ++ emessage e
  end.

(** The objects of the Python heap that hold documents: a location is an
    index, and [copy.deepcopy] allocates a fresh, independent object. *)
Definition loc := nat.
Definition store := list doc.

Definition deepcopy (s : store) (l : loc) : option (loc * store) :=
  match nth_error s l with
  | Some d => Some (length s, (s ++ [d])%list)
  | None => None
  end.

(** The outcome of [JSONSchema.validate]: the validated object, or a
    raised [ValidationError(msg)]. *)
Inductive jresult :=
| JOk (l : loc)
| JValidationError (msg : string).

Module JSONSchema.
Section JSONSchema.

(** [self.validator.iter_errors(instance)]: the violations that the
    Draft 4 validator of the class's [schema] reports, in its order. The
    validator reads the instance and does not modify it. *)
Variable iter_errors : doc -> list jerror.

(** [JSONSchema.validate(self, data)] on the object at location [data];
    returns the result and the heap after the call. *)
Definition validate (s : store) (data : loc) : option (jresult * store) :=
  match deepcopy s data with
  | None => None
  | Some (appstruct, s1) =>
    match nth_error s1 appstruct with
    | None => None
    | Some v =>
      let errors := iter_errors v in
      match errors with
      | [] => Some (JOk appstruct, s1)
      | _ :: _ =>
        let msg := join ", " (map format_jsonschema_error errors) in
        Some (JValidationError msg, s1)
      end
    end
  end.

End JSONSchema.
End JSONSchema.

(* ------------------------------------------------------------------ *)
(** ** [remove_unknown_properties] *)

(** A JSON schema node, reduced to its optional ["properties"] entry
    (name -> sub-schema); the other keywords play no part here. *)
Inductive jschema := JSchema (properties : option (list (string * jschema))).

Definition props := list (string * jschema).

Module Prune.

(** A position in a document: the keys from the root. *)
Definition path := list string.

Fixpoint get_at (p : path) (d : doc) : option doc :=
  match p with
  | [] => Some d
  | k :: r =>
    match d with
    | JObj l => match PyDict.get k l with Some v => get_at r v | None => None end
    | _ => None
    end
  end.

(** Apply [g] to the first entry of key [k]. *)
Fixpoint upd_entry (k : string) (g : doc -> doc) (l : list (string * doc)) : list (string * doc) :=
  match l with
  | [] => []
  | (k', v) :: r => if String.eqb k k' then (k', g v) :: r else (k', v) :: upd_entry k g r
  end.

(** In-place mutation of the object at position [p]. *)
Fixpoint upd_at (p : path) (g : doc -> doc) (d : doc) : doc :=
  match p with
  | [] => g d
  | k :: r =>
    match d with
    | JObj l => JObj (upd_entry k (upd_at r g) l)
    | _ => d
    end
  end.

(** [del data[prop]] *)
Fixpoint py_del (k : string) (l : list (string * doc)) : list (string * doc) :=
  match l with
  | [] => []
  | (k', v) :: r => if String.eqb k k' then r else (k', v) :: py_del k r
  end.

(** [remove_props(data, properties)] *)
Definition remove_props (l : list (string * doc)) (extra : list string) : list (string * doc) :=
  fold_left (fun l k => py_del k l) extra l.

(** [set(data_d.keys()) - set(schema_d.keys())]; deletions commute, so
    the set's iteration order is taken as the data's key order. *)
Definition extra_props (l : list (string * doc)) (schema_d : props) : list string :=
  filter (fun k => negb (PyDict.mem k schema_d)) (map fst l).

(** The [(prop, nested properties)] pairs the loop over [data_d.items()]
    pushes: dict values whose schema node has a ["properties"] entry.
    [schema_d[prop]] always succeeds there, the unknown keys being gone. *)
Fixpoint nested (schema_d : props) (l : list (string * doc)) : list (string * props) :=
  match l with
  | [] => []
  | (prop, value) :: r =>
    match value, PyDict.get prop schema_d with
    | JObj _, Some (JSchema (Some cp)) => (prop, cp) :: nested schema_d r
    | _, _ => nested schema_d r
    end
  end.

(** One iteration of the [while data_properties] loop. The work list is
    kept top first: [data_properties.pop()] takes the head, and the
    appends of one iteration land on top in reverse order. *)
Definition step (d : doc) (data_properties : list (path * props)) : doc * list (path * props) :=
  match data_properties with
  | [] => (d, [])
  | (p, schema_d) :: rest =>
    match get_at p d with
    | Some (JObj l) =>
      let l1 := remove_props l (extra_props l schema_d) in
      let d1 := upd_at p (fun _ => JObj l1) d in
      let pushed := map (fun kc => ((p ++ [fst kc])%list, snd kc)) (nested schema_d l1) in
      (d1, (rev pushed ++ rest)%list)
    | _ => (d, rest) (* only dicts are pushed *)
    end
  end.

Fixpoint run (fuel : nat) (data_properties : list (path * props)) (d : doc) : option doc :=
  match data_properties with
  | [] => Some d
  | _ :: _ =>
    match fuel with
    | O => None
    | S f => let '(d1, wl) := step d data_properties in run f wl d1
    end
  end.

Fixpoint doc_size (d : doc) : nat :=
  match d with
  | JArr l => S (fold_right (fun v n => doc_size v + n) 0 l)
  | JObj l => S (fold_right (fun kv n => doc_size (snd kv) + n) 0 l)
  | _ => 1
  end.

End Prune.

(** [remove_unknown_properties(data, schema)]: the document after the
    in-place pruning, or [None] when the call raises (a [data] that is not
    a dict, a [schema] without ["properties"]). The loop runs at most
    [doc_size data] iterations. *)
Definition remove_unknown_properties (data : doc) (schema : jschema) : option doc :=
  match data, schema with
  | JObj _, JSchema (Some p) => Prune.run (Prune.doc_size data) [([], p)] data
  | _, _ => None
  end.

(** What the spec says pruning leaves at one level, for the nested
    properties [schema_d]: the schema node matching [prop] when it has a
    ["properties"] entry and [value] is a dict. *)
Definition child_props (schema_d : props) (prop : string) (value : doc) : option props :=
  match value, PyDict.get prop schema_d with
  | JObj _, Some (JSchema (Some cp)) => Some cp
  | _, _ => None
  end.

(** The spec's pruning relation (spec 4.3 and 8): [prunes schema_d D R]
    when [R] keeps exactly the keys of [D] that [schema_d] names, in
    order, adds none, and binds each kept key to its value in [D] —
    unchanged when it is not descended into, otherwise pruned in turn
    against the nested properties. *)
Inductive prunes : props -> doc -> doc -> Prop :=
| prunes_obj (schema_d : props) (l l' : list (string * doc)) :
    map fst l' = filter (fun k => PyDict.mem k schema_d) (map fst l) ->
    (forall k v', PyDict.get k l' = Some v' ->
       exists v, PyDict.get k l = Some v /\
         ((child_props schema_d k v = None /\ v' = v) \/
          (exists cp, child_props schema_d k v = Some cp /\ prunes cp v v'))) ->
    prunes schema_d (JObj l) (JObj l').

(** A well-formed document: the keys of every dict are distinct. *)
Fixpoint doc_wf (d : doc) : bool :=
  match d with
  | JArr l => forallb doc_wf l
  | JObj l =>
    nodupb (map fst l) && forallb (fun kv => doc_wf (snd kv)) l
  | _ => true
  end.

(** The recursive reading of the pruning: one level at a time. *)
Fixpoint prune_rec (schema_d : props) (d : doc) : doc :=
  match d with
  | JObj l =>
    JObj ((fix go (l : list (string * doc)) : list (string * doc) :=
             match l with
             | [] => []
             | (k, v) :: r =>
               if PyDict.mem k schema_d then
                 (k, match child_props schema_d k v with
                     | Some cp => prune_rec cp v
                     | None => v
                     end) :: go r
               else go r
             end) l)
  | _ => d
  end.

(* ------------------------------------------------------------------ *)
(** ** The query-validation demo ([query_validation_demo.py]) *)

Module Demo.

Definition asc : member := Member "asc" (PStr "asc").
Definition desc : member := Member "desc" (PStr "desc").

(** The sort-order enum of the search schema. *)
Definition order_enum : enum_cls := EnumCls PlainEnum [("asc", asc); ("desc", desc)].

(** Modelled from the spec: the search schema of [h.schemas.annotation],
    as spec 8 describes it: [order] an enum, [limit] an integer,
    [_separate_replies] a boolean, [offset] an integer scalar, [quote] a
    sequence of strings, and no [ignore_me]. *)
Definition search_schema : schema :=
  [ SchemaNode "order" (TEnum order_enum) false;
    SchemaNode "limit" TInt false;
    SchemaNode "_separate_replies" TBool false;
    SchemaNode "offset" TInt false;
    SchemaNode "quote" (TSequence TString) false ].

(** [params] as the demo builds it with [params.add]. *)
Definition params : multidict :=
  [ ("order", "asc");
    ("limit", "5");
    ("_separate_replies", "true");
    ("offset", "10");
    ("offset", "20");
    ("quote", "foo");
    ("quote", "bar");
    ("ignore_me", "whatever") ].

End Demo.

(* ------------------------------------------------------------------ *)
(** ** Readings of the spec used by the statements *)

(** All values supplied for [k] in the multidict, first to last. *)
Definition values_of (k : string) (data : multidict) : list string :=
  map snd (filter (fun kv => String.eqb (fst kv) k) data).

(** Spec 4.4 (3): ["<dotted.path>: <message>"], or the message alone
    when the violation has an empty path. *)
Definition violation_text (e : jerror) : string :=
  if (length (epath e) =? 0)%nat then emessage e
  else join "." (map pathc_str (epath e)) ++ ": " ++ emessage e.

(** Spec 4.5 (4): the entry of [k] in the last child mapping that has
    one, [None] if none has. *)
Fixpoint last_child_entry (asdict : invalid -> list (string * string))
    (children : list invalid) (k : string) : option string :=
  match children with
  | [] => None
  | c :: r =>
    match last_child_entry asdict r k with
    | Some v => Some v
    | None => PyDict.get k (asdict c)
    end
  end.

(** The message of [k] once the children's mappings are merged over the
    top-level one: a child's entry overwrites the parent's. *)
Definition merged_entry (asdict : invalid -> list (string * string))
    (exc : invalid) (k : string) : option string :=
  match last_child_entry asdict (inv_children exc) k with
  | Some v => Some v
  | None => PyDict.get k (asdict exc)
  end.

(** An [IntEnum]-style enum whose first member has the falsy value 0. *)
Module Flags.
Definition NONE : member := Member "NONE" (PInt 0).
Definition ONE : member := Member "ONE" (PInt 1).
Definition flags_enum : enum_cls := EnumCls MixedEnum [("NONE", NONE); ("ONE", ONE)].
Definition flag_node : schema_node := SchemaNode "flag" (TEnum flags_enum) false.
End Flags.

(* ------------------------------------------------------------------ *)
(** ** Auxiliary definitions of the proofs *)

Module Aux.

(** The value list of a key after more values are appended. *)
Definition opt_app (o : option (list string)) (vs : list string) : option (list string) :=
  match o with
  | Some a => Some (a ++ vs)%list
  | None => match vs with [] => None | _ => Some vs end
  end.

(** [p] is a prefix of [q]. *)
Definition prefix (p q : Prune.path) : Prop := exists r, q = (p ++ r)%list.

(** Neither position lies inside the other. *)
Definition disj (p q : Prune.path) : Prop := ~ prefix p q /\ ~ prefix q p.

(** The positions of a work list are pairwise disjoint. *)
Fixpoint wl_disj (wl : list (Prune.path * props)) : Prop :=
  match wl with
  | [] => True
  | e :: r => Forall (fun e' => disj (fst e) (fst e')) r /\ wl_disj r
  end.

(** What the work list still has to do: prune each pending position. *)
Definition apply_wl (wl : list (Prune.path * props)) (d : doc) : doc :=
  fold_right (fun e acc => Prune.upd_at (fst e) (prune_rec (snd e)) acc) d wl.

(** The weight of a pending position: the size of the object there. *)
Definition weight (p : Prune.path) (d : doc) : nat :=
  match Prune.get_at p d with Some x => Prune.doc_size x | None => 1 end.

Definition measure (wl : list (Prune.path * props)) (d : doc) : nat :=
  fold_right (fun e n => weight (fst e) d + n) 0 wl.

(** The entries of one level once each kept value is pruned in turn. *)
Definition level (schema_d : props) (l : list (string * doc)) : list (string * doc) :=
  map (fun kv => (fst kv, match child_props schema_d (fst kv) (snd kv) with
                          | Some cp => prune_rec cp (snd kv)
                          | None => snd kv
                          end)) l.

Definition keep (schema_d : props) (kv : string * doc) : bool := PyDict.mem (fst kv) schema_d.

(** Sizes of the values of a dict. *)
Definition sum_sizes (l : list (string * doc)) : nat :=
  fold_right (fun kv n => Prune.doc_size (snd kv) + n) 0 l.

Definition wsize (o : option doc) : nat :=
  match o with Some v => Prune.doc_size v | None => 1 end.

End Aux.

(** Record [k] unless it was seen already. *)
Definition add_key (acc : list string) (k : string) : list string :=
  if existsb (String.eqb k) acc then acc else (acc ++ [k])%list.

(** The distinct keys of a list, in the order of their first occurrence. *)
Definition first_occurrences (ks : list string) : list string := fold_left add_key ks [].

(** [==] on enum values and members. *)
Definition pyval_eqb (a b : pyval) : bool :=
  match a, b with
  | PInt x, PInt y => Z.eqb x y
  | PStr x, PStr y => String.eqb x y
  | _, _ => false
  end.

Definition member_eqb (m m' : member) : bool :=
  String.eqb (mname m) (mname m') && pyval_eqb (mvalue m) (mvalue m').

(** Every entry of [_member_map_], an alias included, is a canonical
    member, itself listed under its own name (as [enum.EnumMeta] builds
    the map). *)
Definition enum_canonical (e : enum_cls) : bool :=
  forallb (fun kv => match PyDict.get (mname (snd kv)) (member_map e) with
                     | Some m => member_eqb m (snd kv)
                     | None => false
                     end) (member_map e).

(** No property of the schema has a ["properties"] entry of its own. *)
Definition flat_props (schema_d : props) : bool :=
  forallb (fun kv => match snd kv with JSchema None => true | _ => false end) schema_d.

(** Concrete inputs for the witnesses. *)
Module C9Example.
Definition asdict (e : invalid) : list (string * string) := [(inv_name e, inv_msg e)].
Definition exc : invalid := InvalidExc "limit" "parent" [InvalidExc "limit" "child" []].
Definition deser (_ : schema) (_ : list (string * cstruct)) : invalid + list (string * pyout) :=
  inl exc.
End C9Example.

Module C2Example.
Definition D : doc :=
  JObj [("a", JNum 1); ("x", JNum 2);
        ("b", JObj [("c", JNum 3); ("y", JObj [("z", JNull)])]);
        ("n", JObj [("q", JNull)])].
Definition S : props :=
  [("a", JSchema None);
   ("b", JSchema (Some [("c", JSchema None); ("y", JSchema (Some []))]));
   ("n", JSchema None)].
End C2Example.

Module ExtraExample.
(** The sort-order enum with the alias [ascending] of [asc]. *)
Definition order_alias : enum_cls :=
  EnumCls PlainEnum [("asc", Demo.asc); ("desc", Demo.desc); ("ascending", Demo.asc)].
(** An exception with two children reporting on [limit] and [offset]. *)
Definition asdict (e : invalid) : list (string * string) := [(inv_name e, inv_msg e)].
Definition exc : invalid :=
  InvalidExc "limit" "parent" [InvalidExc "offset" "bad offset" []; InvalidExc "limit" "bad limit" []].
End ExtraExample.

(* ================================================================== *)
(** * Properties *)

Module DictFacts.

Lemma get_set {V} (k k' : string) (v : V) d :
  PyDict.get k (PyDict.set k' v d) = if String.eqb k k' then Some v else PyDict.get k d.
Proof.
  induction d as [|[k0 v0] r IH]; simpl.
  - destruct (String.eqb k k'); reflexivity.
  - destruct (String.eqb k' k0) eqn:E1; simpl.
    + apply String.eqb_eq in E1; subst k0.
      destruct (String.eqb k k'); reflexivity.
    + destruct (String.eqb k k0) eqn:E2; [|exact IH].
      apply String.eqb_eq in E2; subst k0.
      destruct (String.eqb k k') eqn:E3; [|reflexivity].
      apply String.eqb_eq in E3; subst k'.
      rewrite String.eqb_refl in E1; discriminate.
Qed.

Lemma get_app {V} (k : string) (d e : list (string * V)) :
  PyDict.get k (d ++ e)%list =
  match PyDict.get k d with Some v => Some v | None => PyDict.get k e end.
Proof.
  induction d as [|[k0 v0] r IH]; simpl; [reflexivity|].
  destruct (String.eqb k k0); [reflexivity|exact IH].
Qed.

Lemma get_map {V W} (k : string) (h : string -> V -> W) (d : list (string * V)) :
  PyDict.get k (map (fun kv => (fst kv, h (fst kv) (snd kv))) d) =
  option_map (h k) (PyDict.get k d).
Proof.
  induction d as [|[k0 v0] r IH]; simpl; [reflexivity|].
  destruct (String.eqb k k0) eqn:E; [|exact IH].
  apply String.eqb_eq in E; subst; reflexivity.
Qed.

Lemma get_In {V} (k : string) (v : V) d :
  PyDict.get k d = Some v -> In (k, v) d.
Proof.
  induction d as [|[k0 v0] r IH]; simpl; [discriminate|].
  destruct (String.eqb k k0) eqn:E.
  - apply String.eqb_eq in E; subst; intros [= ->]; left; reflexivity.
  - intros H; right; exact (IH H).
Qed.

Lemma get_None {V} (k : string) (d : list (string * V)) :
  ~ In k (map fst d) -> PyDict.get k d = None.
Proof.
  induction d as [|[k0 v0] r IH]; simpl; [reflexivity|].
  intros Hn. destruct (String.eqb k k0) eqn:E.
  - apply String.eqb_eq in E; subst; exfalso; apply Hn; left; reflexivity.
  - apply IH; intros Hi; apply Hn; right; exact Hi.
Qed.

Lemma get_Some_in {V} (k : string) (d : list (string * V)) :
  In k (map fst d) -> exists v, PyDict.get k d = Some v.
Proof.
  induction d as [|[k0 v0] r IH]; simpl; [contradiction|].
  intros Hi. destruct (String.eqb k k0) eqn:E; [eexists; reflexivity|].
  destruct Hi as [Hi|Hi]; [subst; rewrite String.eqb_refl in E; discriminate|].
  exact (IH Hi).
Qed.

Lemma get_rev_nodup {V} (k : string) (d : list (string * V)) :
  NoDup (map fst d) -> PyDict.get k (rev d) = PyDict.get k d.
Proof.
  induction d as [|[k0 v0] r IH]; simpl; [reflexivity|].
  intros Hnd; inversion Hnd as [|? ? Hn Hnd']; subst.
  rewrite get_app, IH by exact Hnd'; simpl.
  destruct (String.eqb k k0) eqn:E.
  - apply String.eqb_eq in E; subst.
    rewrite (get_None k0 r Hn); reflexivity.
  - destruct (PyDict.get k r); reflexivity.
Qed.

Lemma get_update {V} (k : string) (d e : list (string * V)) :
  PyDict.get k (PyDict.update d e) =
  match PyDict.get k (rev e) with Some v => Some v | None => PyDict.get k d end.
Proof.
  revert d; induction e as [|[k0 v0] r IH]; intros d; simpl; [reflexivity|].
  unfold PyDict.update in *; simpl; rewrite IH, get_app, get_set; simpl.
  destruct (PyDict.get k (rev r)); [reflexivity|].
  destruct (String.eqb k k0); reflexivity.
Qed.

End DictFacts.

(* ------------------------------------------------------------------ *)
(** ** [combine_repeated_fields] (C5) *)

Module Combine.

Lemma dict_of_lists_get_gen (k : string) (data : multidict) r :
  PyDict.get k
    (fold_left
       (fun (r : list (string * list string)) (kv : string * string) =>
          let '(k, v) := kv in
          match PyDict.get k r with
          | Some vs => PyDict.set k (vs ++ [v])%list r
          | None => PyDict.set k [v] r
          end) data r)
  = Aux.opt_app (PyDict.get k r) (values_of k data).
Proof.
  revert r; induction data as [|[k0 v0] rest IH]; intros r; simpl.
  - destruct (PyDict.get k r); simpl; rewrite ?app_nil_r; reflexivity.
  - rewrite IH. unfold values_of; simpl.
    destruct (String.eqb k0 k) eqn:E.
    + apply String.eqb_eq in E; subst k0.
      destruct (PyDict.get k r) as [vs|] eqn:Hg;
        rewrite DictFacts.get_set, String.eqb_refl; simpl.
      * rewrite <- app_assoc; reflexivity.
      * reflexivity.
    + assert (E' : String.eqb k k0 = false)
        by (rewrite String.eqb_sym; exact E).
      destruct (PyDict.get k0 r); rewrite DictFacts.get_set, E'; reflexivity.
Qed.

Lemma dict_of_lists_get (k : string) (data : multidict) :
  PyDict.get k (dict_of_lists data) =
  match values_of k data with [] => None | vs => Some vs end.
Proof.
  unfold dict_of_lists; rewrite dict_of_lists_get_gen; simpl.
  destruct (values_of k data); reflexivity.
Qed.

Lemma values_of_nonempty (k : string) (data : multidict) :
  In k (map fst data) -> values_of k data <> [].
Proof.
  induction data as [|[k0 v0] rest IH]; simpl; [contradiction|].
  unfold values_of; simpl.
  intros [->|Hi].
  - rewrite String.eqb_refl; discriminate.
  - destruct (String.eqb k0 k); [discriminate|exact (IH Hi)].
Qed.

End Combine.

(** C5: every key of the multidict is bound to the last value supplied
    for it when the schema has no node of that name or a node whose type
    is not a Sequence, and to the ordered list of all its values when the
    node's type is a Sequence. *)
Theorem combine_repeated_fields_last_or_list (s : schema) (data : multidict) (k : string) :
  In k (map fst data) ->
  PyDict.get k (combine_repeated_fields s data) =
  Some (match schema_get s k with
        | Some node =>
          if is_sequence (node_typ node) then CList (values_of k data)
          else CStr (last (values_of k data) "")
        | None => CStr (last (values_of k data) "")
        end).
Proof.
  intros Hin.
  assert (Hg := Combine.dict_of_lists_get k data).
  assert (Hne := Combine.values_of_nonempty k data Hin).
  unfold combine_repeated_fields.
  induction (dict_of_lists data) as [|[k0 vs0] r IH]; simpl in *.
  - destruct (values_of k data); [contradiction|discriminate].
  - destruct (String.eqb k k0) eqn:E.
    + apply String.eqb_eq in E; subst k0.
      assert (Hv : vs0 = values_of k data)
        by (destruct (values_of k data); [contradiction|injection Hg; auto]).
      subst vs0.
      destruct (schema_get s k) as [n|]; [destruct (is_sequence (node_typ n))|];
        simpl; rewrite String.eqb_refl; reflexivity.
    + destruct (schema_get s k0) as [n|]; [destruct (is_sequence (node_typ n))|];
        simpl; rewrite E; exact (IH Hg).
Qed.

Lemma combine_repeated_fields_last_or_list_witness :
  In "offset" (map fst Demo.params) /\
  PyDict.get "offset" (combine_repeated_fields Demo.search_schema Demo.params) = Some (CStr "20").
Proof.
  split; [simpl; tauto|].
  rewrite (combine_repeated_fields_last_or_list Demo.search_schema Demo.params "offset");
    [reflexivity|simpl; tauto].
Defined.

(* ------------------------------------------------------------------ *)
(** ** [enum_type] (C6, C7, C8, C10) *)

Module EnumFacts.

Lemma nodupb_NoDup (ks : list string) : nodupb ks = true -> NoDup ks.
Proof.
  induction ks as [|k r IH]; simpl; [constructor|].
  intros H; apply andb_prop in H as [Hn Hr].
  constructor; [|exact (IH Hr)].
  intros Hi; apply negb_true_iff in Hn.
  assert (existsb (String.eqb k) r = true)
    by (apply existsb_exists; exists k; split; [exact Hi|apply String.eqb_refl]).
  congruence.
Qed.

(** No member of a well-formed enum is named [""]. *)
Lemma no_empty_name (e : enum_cls) :
  enum_wf e = true -> PyDict.get "" (member_map e) = None.
Proof.
  unfold enum_wf; intros H; apply andb_prop in H as [_ Hf].
  destruct (PyDict.get "" (member_map e)) as [m|] eqn:Hg; [|reflexivity].
  apply DictFacts.get_In in Hg.
  rewrite forallb_forall in Hf; specialize (Hf _ Hg); simpl in Hf.
  discriminate.
Qed.

Lemma deserialize_empty (e : enum_cls) (node : schema_node) :
  enum_wf e = true ->
  EnumType.deserialize e node (CStr "") = Invalid node (dq ++ dq ++ " is not a known value").
Proof.
  intros Hwf; unfold EnumType.deserialize, EnumType.getitem.
  rewrite (no_empty_name e Hwf); reflexivity.
Qed.

End EnumFacts.

(** C8: a token other than [colander.null] is looked up as a member name
    in the enum's name map; an unknown name raises [colander.Invalid] on
    the node with the message ["<token>" is not a known value];
    [colander.null] gives the absent value. *)
Theorem enum_deserialize_by_name (e : enum_cls) (node : schema_node) (tok : string) :
  EnumType.deserialize e node (CStr tok) =
    match PyDict.get tok (member_map e) with
    | Some m => Ok (Some m)
    | None => Invalid node (dq ++ tok ++ dq ++ " is not a known value")
    end
  /\ EnumType.deserialize e node CNull = Ok None.
Proof.
  split; [|reflexivity].
  unfold EnumType.deserialize, EnumType.getitem.
  destruct (PyDict.get tok (member_map e)); reflexivity.
Qed.

(** C7, as stated: [deserialize("")] is absent. It is not: [""] is not
    [colander.null], and is looked up as a name. *)
Lemma enum_deserialize_empty_counterexample :
  EnumType.deserialize Demo.order_enum Flags.flag_node (CStr "")
    = Invalid Flags.flag_node (dq ++ dq ++ " is not a known value")
  /\ EnumType.deserialize Demo.order_enum Flags.flag_node (CStr "") <> Ok None.
Proof.
  split; [reflexivity|discriminate].
Qed.

(** C7, amended: only [colander.null] deserializes to the absent value;
    the empty string, naming no member of a well-formed enum, raises
    [colander.Invalid] with the message [""] is not a known value. *)
Theorem enum_deserialize_empty (e : enum_cls) (node : schema_node) :
  enum_wf e = true ->
  EnumType.deserialize e node (CStr "") = Invalid node (dq ++ dq ++ " is not a known value")
  /\ EnumType.deserialize e node CNull = Ok None
  /\ (forall c, EnumType.deserialize e node c = Ok None -> c = CNull).
Proof.
  intros Hwf; split; [exact (EnumFacts.deserialize_empty e node Hwf)|split; [reflexivity|]].
  intros c H; destruct c as [|tok|l]; [reflexivity| |].
  - unfold EnumType.deserialize, EnumType.getitem in H.
    destruct (PyDict.get tok (member_map e)); discriminate.
  - simpl in H; discriminate.
Qed.

Lemma enum_deserialize_empty_witness :
  enum_wf Demo.order_enum = true /\
  EnumType.deserialize Demo.order_enum Flags.flag_node (CStr "")
    = Invalid Flags.flag_node (dq ++ dq ++ " is not a known value").
Proof.
  split; [reflexivity|].
  apply (enum_deserialize_empty Demo.order_enum Flags.flag_node); reflexivity.
Defined.

(** C6, as stated: the round trip fails for a falsy member. *)
Lemma enum_roundtrip_counterexample :
  is_member Flags.flags_enum Flags.NONE /\
  EnumType.deserialize Flags.flags_enum Flags.flag_node
    (CStr (EnumType.serialize Flags.flags_enum Flags.flag_node (AMember Flags.NONE)))
  <> Ok (Some Flags.NONE).
Proof.
  split; [reflexivity|].
  vm_compute; discriminate.
Qed.

(** C6, amended: the round trip holds for every truthy member (every
    member of a plain [Enum]); the absent value ([None] or
    [colander.null]) serializes to [""]. *)
Theorem enum_roundtrip_truthy (e : enum_cls) (node : schema_node) (m : member) :
  is_member e m -> member_truthy e m = true ->
  EnumType.deserialize e node (CStr (EnumType.serialize e node (AMember m))) = Ok (Some m)
  /\ EnumType.serialize e node ANone = ""
  /\ EnumType.serialize e node ANull = "".
Proof.
  unfold is_member; intros Hm Ht.
  split; [|split; reflexivity].
  unfold EnumType.serialize, EnumType.falsy; rewrite Ht; simpl.
  unfold EnumType.deserialize, EnumType.getitem; rewrite Hm; reflexivity.
Qed.

Lemma enum_roundtrip_truthy_witness :
  EnumType.deserialize Demo.order_enum Flags.flag_node
    (CStr (EnumType.serialize Demo.order_enum Flags.flag_node (AMember Demo.desc)))
  = Ok (Some Demo.desc).
Proof.
  apply (enum_roundtrip_truthy Demo.order_enum Flags.flag_node Demo.desc); reflexivity.
Defined.

(** C10: [serialize] returns [""] for every falsy appstruct; for a
    falsy member of a well-formed enum the round trip gives
    [colander.Invalid] instead of the member. *)
Theorem enum_serialize_falsy (e : enum_cls) (node : schema_node) (m : member) :
  enum_wf e = true -> is_member e m -> member_truthy e m = false ->
  (forall a, EnumType.falsy e a = true -> EnumType.serialize e node a = "")
  /\ EnumType.serialize e node (AMember m) = ""
  /\ EnumType.deserialize e node (CStr (EnumType.serialize e node (AMember m)))
       = Invalid node (dq ++ dq ++ " is not a known value")
  /\ EnumType.deserialize e node (CStr (EnumType.serialize e node (AMember m)))
       <> Ok (Some m).
Proof.
  intros Hwf _ Hf.
  assert (Hs : EnumType.serialize e node (AMember m) = "")
    by (unfold EnumType.serialize, EnumType.falsy; rewrite Hf; reflexivity).
  split; [intros a Ha; unfold EnumType.serialize; rewrite Ha; reflexivity|].
  split; [exact Hs|].
  rewrite Hs.
  rewrite (EnumFacts.deserialize_empty e node Hwf); split; [reflexivity|discriminate].
Qed.

Lemma enum_serialize_falsy_witness :
  EnumType.serialize Flags.flags_enum Flags.flag_node (AMember Flags.NONE) = "".
Proof.
  apply (enum_serialize_falsy Flags.flags_enum Flags.flag_node Flags.NONE); reflexivity.
Defined.

(* ------------------------------------------------------------------ *)
(** ** [JSONSchema.validate] (C3, C4) *)

Module ValidateFacts.

Lemma format_violation_text (e : jerror) :
  format_jsonschema_error e = violation_text e.
Proof.
  unfold format_jsonschema_error, violation_text; destruct (epath e); reflexivity.
Qed.

Lemma nth_error_alloc (s : store) (d : doc) :
  nth_error (s ++ [d])%list (length s) = Some d.
Proof.
  rewrite nth_error_app2 by lia; rewrite Nat.sub_diag; reflexivity.
Qed.

Lemma validate_unfold (iter_errors : doc -> list jerror) (s : store) (l : loc) (d : doc) :
  nth_error s l = Some d ->
  JSONSchema.validate iter_errors s l =
  Some (match iter_errors d with
        | [] => JOk (length s)
        | errs => JValidationError (join ", " (map format_jsonschema_error errs))
        end, (s ++ [d])%list).
Proof.
  intros Hd; unfold JSONSchema.validate, deepcopy; rewrite Hd, nth_error_alloc.
  destruct (iter_errors d); reflexivity.
Qed.

End ValidateFacts.

(** C4: [validate] raises [ValidationError] exactly when the validator
    reports a violation, with the message joining with [", "] the
    ["<dotted.path>: <message>"] texts of all violations (the message
    alone for an empty path); otherwise it returns the copy. *)
Theorem validate_raises_iff_errors (iter_errors : doc -> list jerror) (s : store) (data : loc) (d : doc) :
  nth_error s data = Some d ->
  exists r s',
    JSONSchema.validate iter_errors s data = Some (r, s')
    /\ (iter_errors d = [] -> r = JOk (length s) /\ nth_error s' (length s) = Some d)
    /\ (iter_errors d <> [] ->
        r = JValidationError (join ", " (map violation_text (iter_errors d)))).
Proof.
  intros Hd. rewrite (ValidateFacts.validate_unfold iter_errors s data d Hd).
  eexists; eexists; split; [reflexivity|].
  split.
  - intros He; rewrite He; split; [reflexivity|apply ValidateFacts.nth_error_alloc].
  - intros He; destruct (iter_errors d) as [|e es]; [contradiction|].
    rewrite (map_ext _ _ ValidateFacts.format_violation_text); reflexivity.
Qed.

Lemma validate_raises_iff_errors_witness :
  exists r s',
    JSONSchema.validate (fun _ => [JError [PKey "user"; PIdx 3] "bad"; JError [] "root"])
      [JObj []] 0 = Some (r, s')
    /\ (([JError [PKey "user"; PIdx 3] "bad"; JError [] "root"] : list jerror) <> [] ->
        r = JValidationError "user.3: bad, root").
Proof.
  destruct (validate_raises_iff_errors
              (fun _ => [JError [PKey "user"; PIdx 3] "bad"; JError [] "root"])
              [JObj []] 0 (JObj []) eq_refl) as (r & s' & H1 & _ & H3).
  exists r, s'; split; [exact H1|intros Hne; rewrite (H3 Hne); reflexivity].
Defined.

(** C3: on a document that satisfies the schema, [validate] returns an
    object distinct from the argument and deep-equal to it; whether the
    call succeeds or raises, every object that existed before the call,
    the argument included, is unchanged afterwards. *)
Theorem validate_returns_copy (iter_errors : doc -> list jerror) (s : store) (data : loc) (d : doc) :
  nth_error s data = Some d ->
  (forall r s', JSONSchema.validate iter_errors s data = Some (r, s') ->
     forall l, l < length s -> nth_error s' l = nth_error s l)
  /\ (iter_errors d = [] ->
      exists l' s', JSONSchema.validate iter_errors s data = Some (JOk l', s')
        /\ l' <> data /\ nth_error s' l' = Some d /\ nth_error s' data = Some d).
Proof.
  intros Hd. rewrite (ValidateFacts.validate_unfold iter_errors s data d Hd).
  assert (Hlt : data < length s) by (apply nth_error_Some; congruence).
  split.
  - intros r s' [= _ <-] l Hl; apply nth_error_app1; exact Hl.
  - intros He; rewrite He.
    exists (length s), (s ++ [d])%list; split; [reflexivity|].
    split; [lia|].
    split; [apply ValidateFacts.nth_error_alloc|].
    rewrite nth_error_app1 by exact Hlt; exact Hd.
Qed.

Lemma validate_returns_copy_witness :
  exists l' s', JSONSchema.validate (fun _ => []) [JObj [("a", JNum 1)]] 0 = Some (JOk l', s')
    /\ nth_error s' l' = Some (JObj [("a", JNum 1)]).
Proof.
  destruct (validate_returns_copy (fun _ => []) [JObj [("a", JNum 1)]] 0 (JObj [("a", JNum 1)]) eq_refl)
    as [_ H]; destruct (H eq_refl) as (l' & s' & H1 & _ & H3 & _).
  exists l', s'; split; assumption.
Defined.

(* ------------------------------------------------------------------ *)
(** ** [validate_query_params] (C1, C9) *)

Module QueryFacts.

Lemma keys_set_In {V} (k x : string) (v : V) d :
  In x (map fst (PyDict.set k v d)) -> In x (map fst d) \/ x = k.
Proof.
  induction d as [|[k0 v0] r IH]; simpl.
  - intros [<-|[]]; right; reflexivity.
  - destruct (String.eqb k k0) eqn:E; simpl; [tauto|].
    intros [H|H]; [left; left; exact H|].
    destruct (IH H) as [H'|H']; [left; right; exact H'|right; exact H'].
Qed.

Lemma set_nodup {V} (k : string) (v : V) d :
  NoDup (map fst d) -> NoDup (map fst (PyDict.set k v d)).
Proof.
  induction d as [|[k0 v0] r IH]; simpl; intros Hnd.
  - constructor; [intros []|constructor].
  - inversion Hnd as [|? ? Hn Hr]; subst.
    destruct (String.eqb k k0) eqn:E; simpl; [exact Hnd|].
    constructor; [|exact (IH Hr)].
    intros Hi; destruct (keys_set_In k k0 v r Hi) as [H|H]; [exact (Hn H)|].
    subst; rewrite String.eqb_refl in E; discriminate.
Qed.

Lemma update_nodup {V} (d e : list (string * V)) :
  NoDup (map fst d) -> NoDup (map fst (PyDict.update d e)).
Proof.
  unfold PyDict.update; revert d; induction e as [|kv r IH]; intros d Hnd; simpl; [exact Hnd|].
  apply IH, set_nodup; exact Hnd.
Qed.

Lemma merge_nodup (asdict : invalid -> list (string * string)) (cs : list invalid) d0 :
  NoDup (map fst d0) ->
  NoDup (map fst (fold_left (fun d child => PyDict.update d (asdict child)) cs d0)).
Proof.
  revert d0; induction cs as [|c r IH]; intros d0 Hnd; simpl; [exact Hnd|].
  apply IH, update_nodup; exact Hnd.
Qed.

Lemma merge_get (asdict : invalid -> list (string * string)) (k : string)
    (cs : list invalid) (d0 : list (string * string)) :
  (forall e, nodupb (map fst (asdict e)) = true) ->
  PyDict.get k (fold_left (fun d child => PyDict.update d (asdict child)) cs d0) =
  match last_child_entry asdict cs k with
  | Some v => Some v
  | None => PyDict.get k d0
  end.
Proof.
  intros Hnd; revert d0; induction cs as [|c r IH]; intros d0; simpl; [reflexivity|].
  rewrite IH, DictFacts.get_update,
    (DictFacts.get_rev_nodup k _ (EnumFacts.nodupb_NoDup _ (Hnd c))).
  destruct (last_child_entry asdict r k); reflexivity.
Qed.

End QueryFacts.

(** C9: when the deserializer raises, [validate_query_params] raises a
    [ValidationError] whose message joins with newlines the
    ["<path>: <message>"] entries of the mapping obtained by merging every
    child's mapping over the top-level one: the mapping has one entry per
    path, and a child's entry overwrites the parent's for the same path,
    whose message is then gone. *)
Theorem validate_query_params_error_message
    (asdict : invalid -> list (string * string))
    (deser : schema -> list (string * cstruct) -> invalid + list (string * pyout))
    (s : schema) (params : multidict) (exc : invalid) :
  (forall e, nodupb (map fst (asdict e)) = true) ->
  deser s (combine_repeated_fields s params) = inl exc ->
  exists msg_dict,
    validate_query_params asdict deser s params
      = VValidationError (join nl (map (fun fe => fst fe ++ ": " ++ snd fe) msg_dict))
    /\ NoDup (map fst msg_dict)
    /\ (forall k, PyDict.get k msg_dict = merged_entry asdict exc k).
Proof.
  intros Hnd Hd.
  unfold validate_query_params; rewrite Hd.
  eexists; split; [reflexivity|split].
  - apply QueryFacts.merge_nodup, EnumFacts.nodupb_NoDup, Hnd.
  - intros k; apply QueryFacts.merge_get; exact Hnd.
Qed.

Lemma validate_query_params_error_message_witness :
  exists msg_dict,
    validate_query_params C9Example.asdict C9Example.deser Demo.search_schema Demo.params
      = VValidationError (join nl (map (fun fe => fst fe ++ ": " ++ snd fe) msg_dict))
    /\ PyDict.get "limit" msg_dict = Some "child".
Proof.
  destruct (validate_query_params_error_message C9Example.asdict C9Example.deser
              Demo.search_schema Demo.params C9Example.exc)
    as (m & H1 & _ & H2); [intros e; reflexivity|reflexivity|].
  exists m; split; [exact H1|rewrite H2; reflexivity].
Defined.

(** C1: the demo's multidict, validated against the search schema,
    gives exactly [{order: asc, limit: 5, _separate_replies: true,
    offset: 20, quote: [foo, bar]}], without [ignore_me]. *)
Theorem demo_validate_query_params (asdict : invalid -> list (string * string)) :
  exists r,
    validate_query_params asdict MappingDeserialize.deserialize Demo.search_schema Demo.params
      = VOk r
    /\ r = [ ("order", OEnum Demo.asc);
             ("limit", OInt 5);
             ("_separate_replies", OBool true);
             ("offset", OInt 20);
             ("quote", OList [OStr "foo"; OStr "bar"]) ]
    /\ PyDict.get "ignore_me" r = None.
Proof.
  eexists; split; [vm_compute; reflexivity|].
  split; reflexivity.
Qed.

(* ------------------------------------------------------------------ *)
(** ** [remove_unknown_properties] (C2) *)

Module PruneFacts.
Import Prune Aux.

(** *** Positions in a document *)

Lemma get_upd_entry (k k' : string) (h : doc -> doc) l :
  PyDict.get k' (upd_entry k h l) =
  if String.eqb k' k then option_map h (PyDict.get k' l) else PyDict.get k' l.
Proof.
  induction l as [|[k0 v0] r IH]; simpl.
  - destruct (String.eqb k' k); reflexivity.
  - destruct (String.eqb k k0) eqn:E1; simpl.
    + apply String.eqb_eq in E1; subst k0.
      destruct (String.eqb k' k); reflexivity.
    + rewrite IH. destruct (String.eqb k' k0) eqn:E2; [|reflexivity].
      apply String.eqb_eq in E2; subst k0.
      destruct (String.eqb k' k) eqn:E3; [|reflexivity].
      apply String.eqb_eq in E3; subst; rewrite String.eqb_refl in E1; discriminate.
Qed.

Lemma upd_entry_keys (k : string) (h : doc -> doc) l :
  map fst (upd_entry k h l) = map fst l.
Proof.
  induction l as [|[k0 v0] r IH]; simpl; [reflexivity|].
  destruct (String.eqb k k0); simpl; [reflexivity|rewrite IH; reflexivity].
Qed.

Lemma upd_entry_ext (k : string) (h1 h2 : doc -> doc) l :
  (forall x, h1 x = h2 x) -> upd_entry k h1 l = upd_entry k h2 l.
Proof.
  intros H; induction l as [|[k0 v0] r IH]; simpl; [reflexivity|].
  destruct (String.eqb k k0); [rewrite H|rewrite IH]; reflexivity.
Qed.

Lemma upd_entry_comp (k : string) (h1 h2 : doc -> doc) l :
  upd_entry k h1 (upd_entry k h2 l) = upd_entry k (fun x => h1 (h2 x)) l.
Proof.
  induction l as [|[k0 v0] r IH]; simpl; [reflexivity|].
  destruct (String.eqb k k0) eqn:E; simpl; rewrite E; [reflexivity|rewrite IH; reflexivity].
Qed.

Lemma upd_entry_comm (k k' : string) (h1 h2 : doc -> doc) l :
  k <> k' -> upd_entry k h1 (upd_entry k' h2 l) = upd_entry k' h2 (upd_entry k h1 l).
Proof.
  intros Hne; induction l as [|[k0 v0] r IH]; simpl; [reflexivity|].
  destruct (String.eqb k' k0) eqn:E1, (String.eqb k k0) eqn:E2; simpl;
    rewrite ?E1, ?E2; try reflexivity.
  - apply String.eqb_eq in E1; apply String.eqb_eq in E2; subst; contradiction.
  - rewrite IH; reflexivity.
Qed.

Lemma upd_at_ext (p : path) (f g : doc -> doc) d :
  (forall x, f x = g x) -> upd_at p f d = upd_at p g d.
Proof.
  revert d; induction p as [|k r IH]; intros d H; simpl; [apply H|].
  destruct d; try reflexivity.
  f_equal; apply upd_entry_ext; intros x; apply IH; exact H.
Qed.

Lemma upd_at_comp (p : path) (f g : doc -> doc) d :
  upd_at p f (upd_at p g d) = upd_at p (fun x => f (g x)) d.
Proof.
  revert d; induction p as [|k r IH]; intros d; simpl; [reflexivity|].
  destruct d; try reflexivity.
  rewrite upd_entry_comp; f_equal; apply upd_entry_ext; intros x; apply IH.
Qed.

Lemma upd_at_app (p q : path) (g : doc -> doc) d :
  upd_at (p ++ q)%list g d = upd_at p (upd_at q g) d.
Proof.
  revert d; induction p as [|k r IH]; intros d; simpl; [reflexivity|].
  destruct d; try reflexivity.
  f_equal; apply upd_entry_ext; intros x; apply IH.
Qed.

Lemma get_at_app (p q : path) d :
  get_at (p ++ q)%list d = match get_at p d with Some x => get_at q x | None => None end.
Proof.
  revert d; induction p as [|k r IH]; intros d; simpl; [reflexivity|].
  destruct d; try (destruct q; reflexivity).
  destruct (PyDict.get k l); [apply IH|reflexivity].
Qed.

Lemma get_upd_same (p : path) (g : doc -> doc) d :
  get_at p (upd_at p g d) = option_map g (get_at p d).
Proof.
  revert d; induction p as [|k r IH]; intros d; simpl; [reflexivity|].
  destruct d; try reflexivity.
  rewrite get_upd_entry, String.eqb_refl.
  destruct (PyDict.get k l); simpl; [apply IH|reflexivity].
Qed.

Lemma upd_at_id (p : path) (g : doc -> doc) d :
  (forall x, get_at p d = Some x -> g x = x) -> upd_at p g d = d.
Proof.
  revert d; induction p as [|k r IH]; intros d H; simpl; [apply H; reflexivity|].
  destruct d; try reflexivity.
  f_equal. simpl in H.
  induction l as [|[k0 v0] l' IHl]; simpl; [reflexivity|].
  simpl in H. destruct (String.eqb k k0) eqn:E.
  - rewrite (IH v0 H); reflexivity.
  - f_equal; apply IHl; exact H.
Qed.

(** *** Disjoint positions *)

Lemma prefix_cons (k : string) (p q : path) :
  prefix (k :: p) (k :: q) -> prefix p q.
Proof. intros [r Hr]; injection Hr as Hr; exists r; exact Hr. Qed.

Lemma disj_cons (k : string) (p q : path) : disj (k :: p) (k :: q) -> disj p q.
Proof.
  intros [H1 H2]; split.
  - intros [r Hr]; apply H1; exists r; rewrite Hr; reflexivity.
  - intros [r Hr]; apply H2; exists r; rewrite Hr; reflexivity.
Qed.

Lemma disj_sym (p q : path) : disj p q -> disj q p.
Proof. intros [H1 H2]; split; assumption. Qed.

Lemma disj_nil_l (q : path) : ~ disj [] q.
Proof. intros [H _]; apply H; exists q; reflexivity. Qed.

Lemma disj_nil_r (p : path) : ~ disj p [].
Proof. intros [_ H]; apply H; exists p; reflexivity. Qed.

Lemma get_upd_disj (p q : path) (g : doc -> doc) d :
  disj p q -> get_at q (upd_at p g d) = get_at q d.
Proof.
  revert q d; induction p as [|k p' IH]; intros q d Hd;
    [exfalso; exact (disj_nil_l q Hd)|].
  destruct q as [|k' q']; [exfalso; exact (disj_nil_r _ Hd)|].
  simpl; destruct d; try reflexivity.
  rewrite get_upd_entry.
  destruct (String.eqb k' k) eqn:E; [|reflexivity].
  apply String.eqb_eq in E; subst k'.
  destruct (PyDict.get k l); simpl; [|reflexivity].
  apply IH; exact (disj_cons _ _ _ Hd).
Qed.

Lemma upd_comm_disj (p q : path) (f g : doc -> doc) d :
  disj p q -> upd_at p f (upd_at q g d) = upd_at q g (upd_at p f d).
Proof.
  revert q d; induction p as [|k p' IH]; intros q d Hd;
    [exfalso; exact (disj_nil_l q Hd)|].
  destruct q as [|k' q']; [exfalso; exact (disj_nil_r _ Hd)|].
  simpl; destruct d; try reflexivity.
  f_equal.
  destruct (String.eqb k k') eqn:E.
  - apply String.eqb_eq in E; subst k'.
    rewrite !upd_entry_comp; apply upd_entry_ext; intros x.
    apply IH; exact (disj_cons _ _ _ Hd).
  - apply upd_entry_comm; intros ->; rewrite String.eqb_refl in E; discriminate.
Qed.

Lemma prefix_snoc (q p : path) (k : string) :
  prefix q (p ++ [k])%list -> prefix q p \/ q = (p ++ [k])%list.
Proof.
  intros [r Hr]. destruct r as [|x r'] using rev_ind.
  - right; rewrite app_nil_r in Hr; symmetry; exact Hr.
  - left. rewrite app_assoc in Hr. apply app_inj_tail in Hr as [Hr _].
    exists r'; exact Hr.
Qed.

Lemma disj_snoc (p q : path) (k : string) : disj p q -> disj (p ++ [k])%list q.
Proof.
  intros [H1 H2]; split.
  - intros [r Hr]; apply H1; exists ([k] ++ r)%list; rewrite Hr, app_assoc; reflexivity.
  - intros Hp; apply prefix_snoc in Hp as [Hp|Hp]; [exact (H2 Hp)|].
    apply H1; exists [k]; exact Hp.
Qed.

Lemma upd_at_ext_at (p : path) (f g : doc -> doc) d :
  (forall x, get_at p d = Some x -> f x = g x) -> upd_at p f d = upd_at p g d.
Proof.
  revert d; induction p as [|k r IH]; intros d H; simpl; [apply H; reflexivity|].
  destruct d; try reflexivity.
  f_equal. simpl in H.
  induction l as [|[k0 v0] l' IHl]; simpl; [reflexivity|].
  simpl in H. destruct (String.eqb k k0) eqn:E.
  - rewrite (IH v0 H); reflexivity.
  - f_equal; apply IHl; exact H.
Qed.

(** *** The pending work *)

Lemma apply_wl_cons (e : path * props) wl d :
  apply_wl (e :: wl) d = upd_at (fst e) (prune_rec (snd e)) (apply_wl wl d).
Proof. reflexivity. Qed.

Lemma apply_wl_app (a b : list (path * props)) d :
  apply_wl (a ++ b)%list d = apply_wl a (apply_wl b d).
Proof. unfold apply_wl; apply fold_right_app. Qed.

Lemma apply_wl_upd_comm (p : path) (g : doc -> doc) wl d :
  Forall (fun e => disj p (fst e)) wl ->
  apply_wl wl (upd_at p g d) = upd_at p g (apply_wl wl d).
Proof.
  induction wl as [|e r IH]; intros Hf; simpl; [reflexivity|].
  inversion Hf as [|? ? He Hr]; subst.
  rewrite (IH Hr). apply upd_comm_disj, disj_sym; exact He.
Qed.

Lemma get_apply_disj (p : path) wl d :
  Forall (fun e => disj p (fst e)) wl -> get_at p (apply_wl wl d) = get_at p d.
Proof.
  induction wl as [|e r IH]; intros Hf; simpl; [reflexivity|].
  inversion Hf as [|? ? He Hr]; subst.
  rewrite get_upd_disj by (apply disj_sym; exact He). exact (IH Hr).
Qed.

Lemma apply_wl_prefix (p : path) (g : doc -> doc) (cs : list (string * props)) d :
  apply_wl (map (fun kc => ((p ++ [fst kc])%list, snd kc)) cs) (upd_at p g d) =
  upd_at p (fun x => apply_wl (map (fun kc => ([fst kc], snd kc)) cs) (g x)) d.
Proof.
  induction cs as [|[k cp] r IH]; simpl.
  - apply upd_at_ext; reflexivity.
  - rewrite IH, upd_at_app, upd_at_comp; reflexivity.
Qed.

(** Updates of other keys leave the first entry of a dict alone. *)
Lemma apply_wl_head (k : string) (x : doc) ws :
  Forall (fun w => exists k', fst w = [k'] /\ k' <> k) ws ->
  forall l, exists l',
    apply_wl ws (JObj l) = JObj l' /\ apply_wl ws (JObj ((k, x) :: l)) = JObj ((k, x) :: l').
Proof.
  induction ws as [|w r IH]; intros Hf l.
  - exists l; split; reflexivity.
  - inversion Hf as [|? ? (k' & Hw & Hne) Hr]; subst.
    destruct (IH Hr l) as (l' & H1 & H2).
    rewrite !apply_wl_cons, H1, H2.
    destruct w as [wp wcp]; simpl in Hw; subst wp; simpl.
    exists (upd_entry k' (fun d => prune_rec wcp d) l'); split; [reflexivity|].
    destruct (String.eqb k' k) eqn:E; [apply String.eqb_eq in E; contradiction|reflexivity].
Qed.

(** *** One level of the document *)

Lemma nested_cons (schema_d : props) (k : string) (v : doc) r :
  nested schema_d ((k, v) :: r) =
  match child_props schema_d k v with
  | Some cp => (k, cp) :: nested schema_d r
  | None => nested schema_d r
  end.
Proof.
  simpl; unfold child_props.
  destruct v; try reflexivity.
  destruct (PyDict.get k schema_d) as [[[cp|]]|]; reflexivity.
Qed.

Lemma nested_keys (schema_d : props) l kc :
  In kc (nested schema_d l) -> In (fst kc) (map fst l).
Proof.
  induction l as [|[k v] r IH]; [simpl; contradiction|].
  rewrite nested_cons. destruct (child_props schema_d k v); simpl.
  - intros [<-|Hi]; [left; reflexivity|right; exact (IH Hi)].
  - intros Hi; right; exact (IH Hi).
Qed.

Lemma nested_nodup (schema_d : props) l :
  NoDup (map fst l) -> NoDup (map fst (nested schema_d l)).
Proof.
  induction l as [|[k v] r IH]; [simpl; constructor|].
  intros Hnd; inversion Hnd as [|? ? Hn Hr]; subst.
  rewrite nested_cons. destruct (child_props schema_d k v); simpl; [|exact (IH Hr)].
  constructor; [|exact (IH Hr)].
  intros Hi; apply in_map_iff in Hi as (kc & Hk & Hi).
  apply Hn; rewrite <- Hk; exact (nested_keys _ _ _ Hi).
Qed.

(** The pushes of one iteration, once done, prune every kept value. *)
Lemma apply_level (schema_d : props) l :
  NoDup (map fst l) ->
  apply_wl (map (fun kc => ([fst kc], snd kc)) (rev (nested schema_d l))) (JObj l)
  = JObj (level schema_d l).
Proof.
  induction l as [|[k v] r IH]; intros Hnd; [reflexivity|].
  inversion Hnd as [|? ? Hn Hr]; subst.
  assert (Hf : Forall (fun w => exists k', fst w = [k'] /\ k' <> k)
                 (map (fun kc => ([fst kc], snd kc)) (rev (nested schema_d r)))).
  { apply Forall_forall; intros w Hw.
    apply in_map_iff in Hw as (kc & <- & Hi).
    exists (fst kc); split; [reflexivity|].
    intros Heq; apply Hn; rewrite <- Heq.
    apply nested_keys with (schema_d := schema_d).
    apply in_rev; exact Hi. }
  destruct (apply_wl_head k v _ Hf r) as (l' & H1 & _).
  rewrite (IH Hr) in H1; injection H1 as H1; subst l'.
  rewrite nested_cons; unfold level at 1; simpl.
  destruct (child_props schema_d k v) as [cp|].
  - simpl; rewrite map_app, apply_wl_app; simpl.
    rewrite String.eqb_refl.
    destruct (apply_wl_head k (prune_rec cp v) _ Hf r) as (l' & H1 & H2).
    rewrite (IH Hr) in H1; injection H1 as H1; subst l'.
    exact H2.
  - destruct (apply_wl_head k v _ Hf r) as (l' & H1 & H2).
    rewrite (IH Hr) in H1; injection H1 as H1; subst l'.
    exact H2.
Qed.

(** *** Deleting the unknown keys *)

Lemma filter_true {A} (f : A -> bool) l : (forall x, In x l -> f x = true) -> filter f l = l.
Proof.
  induction l as [|x r IH]; intros H; simpl; [reflexivity|].
  rewrite (H x (or_introl eq_refl)), IH; [reflexivity|].
  intros y Hy; apply H; right; exact Hy.
Qed.

Lemma filter_filter {A} (f g : A -> bool) l :
  filter f (filter g l) = filter (fun x => g x && f x) l.
Proof.
  induction l as [|x r IH]; simpl; [reflexivity|].
  destruct (g x); simpl; [destruct (f x); simpl; rewrite IH; reflexivity|exact IH].
Qed.

Lemma keys_filter (f : string -> bool) (l : list (string * doc)) :
  map fst (filter (fun kv => f (fst kv)) l) = filter f (map fst l).
Proof.
  induction l as [|[k v] r IH]; simpl; [reflexivity|].
  destruct (f k); simpl; rewrite IH; reflexivity.
Qed.

Lemma nodup_keys_filter (f : string * doc -> bool) (l : list (string * doc)) :
  NoDup (map fst l) -> NoDup (map fst (filter f l)).
Proof.
  induction l as [|[k v] r IH]; simpl; [constructor|].
  intros Hnd; inversion Hnd as [|? ? Hn Hr]; subst.
  destruct (f (k, v)); simpl; [|exact (IH Hr)].
  constructor; [|exact (IH Hr)].
  intros Hi; apply Hn.
  apply in_map_iff in Hi as ([k' v'] & Hk & Hi); simpl in Hk; subst k'.
  apply filter_In in Hi as [Hi _].
  apply in_map_iff; exists (k, v'); split; [reflexivity|exact Hi].
Qed.

Lemma py_del_filter (k : string) (l : list (string * doc)) :
  NoDup (map fst l) ->
  py_del k l = filter (fun kv => negb (String.eqb (fst kv) k)) l.
Proof.
  induction l as [|[k0 v0] r IH]; intros Hnd; simpl; [reflexivity|].
  inversion Hnd as [|? ? Hn Hr]; subst.
  rewrite String.eqb_sym.
  destruct (String.eqb k0 k) eqn:E; simpl.
  - apply String.eqb_eq in E; subst k0.
    symmetry; apply filter_true.
    intros [k' v'] Hi; simpl.
    destruct (String.eqb k' k) eqn:E'; [|reflexivity].
    apply String.eqb_eq in E'; subst k'.
    exfalso; apply Hn; apply in_map_iff; exists (k, v'); split; [reflexivity|exact Hi].
  - rewrite (IH Hr); reflexivity.
Qed.

Lemma remove_props_filter (ks : list string) (l : list (string * doc)) :
  NoDup (map fst l) ->
  remove_props l ks = filter (fun kv => negb (existsb (String.eqb (fst kv)) ks)) l.
Proof.
  unfold remove_props.
  revert l; induction ks as [|k r IH]; intros l Hnd; simpl.
  - symmetry; apply filter_true; reflexivity.
  - rewrite (py_del_filter k l Hnd).
    rewrite IH by (apply nodup_keys_filter; exact Hnd).
    rewrite filter_filter; apply filter_ext; intros [k' v']; simpl.
    destruct (String.eqb k' k); reflexivity.
Qed.

Lemma remove_extra (schema_d : props) (l : list (string * doc)) :
  NoDup (map fst l) ->
  remove_props l (extra_props l schema_d) = filter (keep schema_d) l.
Proof.
  intros Hnd; rewrite (remove_props_filter _ _ Hnd).
  apply filter_ext_in; intros [k v] Hi; unfold keep; simpl.
  destruct (existsb (String.eqb k) (extra_props l schema_d)) eqn:E.
  - apply existsb_exists in E as (k' & Hk' & Heq).
    apply String.eqb_eq in Heq; subst k'.
    unfold extra_props in Hk'; apply filter_In in Hk' as [_ Hm].
    destruct (PyDict.mem k schema_d); [discriminate|reflexivity].
  - destruct (PyDict.mem k schema_d) eqn:Hm; [reflexivity|].
    assert (existsb (String.eqb k) (extra_props l schema_d) = true); [|congruence].
    apply existsb_exists; exists k; split; [|apply String.eqb_refl].
    unfold extra_props; apply filter_In; split; [|rewrite Hm; reflexivity].
    apply in_map_iff; exists (k, v); split; [reflexivity|exact Hi].
Qed.

Lemma prune_rec_obj (schema_d : props) (l : list (string * doc)) :
  prune_rec schema_d (JObj l) = JObj (level schema_d (filter (keep schema_d) l)).
Proof.
  simpl; f_equal.
  induction l as [|[k v] r IH]; simpl; [reflexivity|].
  unfold keep at 1; simpl.
  destruct (PyDict.mem k schema_d); simpl; rewrite IH; reflexivity.
Qed.

(** *** Well-formedness is kept *)

Lemma NoDup_nodupb (ks : list string) : NoDup ks -> nodupb ks = true.
Proof.
  induction ks as [|k r IH]; intros Hnd; simpl; [reflexivity|].
  inversion Hnd as [|? ? Hn Hr]; subst.
  rewrite (IH Hr), andb_true_r.
  destruct (existsb (String.eqb k) r) eqn:E; [|reflexivity].
  apply existsb_exists in E as (k' & Hi & Heq); apply String.eqb_eq in Heq; subst k'.
  contradiction.
Qed.

Lemma doc_wf_obj (l : list (string * doc)) :
  doc_wf (JObj l) = true <->
  NoDup (map fst l) /\ (forall kv, In kv l -> doc_wf (snd kv) = true).
Proof.
  simpl; rewrite andb_true_iff, forallb_forall; split.
  - intros [H1 H2]; split; [apply EnumFacts.nodupb_NoDup; exact H1|exact H2].
  - intros [H1 H2]; split; [apply NoDup_nodupb; exact H1|exact H2].
Qed.

Lemma doc_wf_get (p : path) d x :
  doc_wf d = true -> get_at p d = Some x -> doc_wf x = true.
Proof.
  revert d; induction p as [|k r IH]; intros d Hwf Hg; simpl in Hg.
  - injection Hg as <-; exact Hwf.
  - destruct d; try discriminate.
    destruct (PyDict.get k l) as [v|] eqn:Hv; [|discriminate].
    apply (IH v); [|exact Hg].
    apply doc_wf_obj in Hwf as [_ Hwf].
    exact (Hwf (k, v) (DictFacts.get_In k v l Hv)).
Qed.

Lemma doc_wf_upd (p : path) (g : doc -> doc) d :
  doc_wf d = true ->
  (forall x, get_at p d = Some x -> doc_wf (g x) = true) ->
  doc_wf (upd_at p g d) = true.
Proof.
  revert d; induction p as [|k r IH]; intros d Hwf Hg; simpl.
  - apply Hg; reflexivity.
  - destruct d; try exact Hwf.
    apply doc_wf_obj in Hwf as [Hnd Hall].
    apply doc_wf_obj; split; [rewrite upd_entry_keys; exact Hnd|].
    simpl in Hg.
    clear Hnd; induction l as [|[k0 v0] l' IHl]; simpl; [contradiction|].
    simpl in Hg.
    destruct (String.eqb k k0) eqn:E.
    + intros kv [<-|Hi]; simpl.
      * apply IH; [exact (Hall (k0, v0) (or_introl eq_refl))|exact Hg].
      * exact (Hall kv (or_intror Hi)).
    + intros kv [<-|Hi]; [exact (Hall (k0, v0) (or_introl eq_refl))|].
      apply IHl; [intros kv' Hi'; exact (Hall kv' (or_intror Hi'))|exact Hg|exact Hi].
Qed.

Lemma doc_wf_filter (f : string * doc -> bool) (l : list (string * doc)) :
  doc_wf (JObj l) = true -> doc_wf (JObj (filter f l)) = true.
Proof.
  rewrite !doc_wf_obj; intros [Hnd Hall]; split.
  - apply nodup_keys_filter; exact Hnd.
  - intros kv Hi; apply filter_In in Hi as [Hi _]; exact (Hall kv Hi).
Qed.

(** *** The loop terminates within [doc_size] iterations *)

Lemma doc_size_pos (d : doc) : 1 <= doc_size d.
Proof. destruct d; simpl; lia. Qed.

Lemma measure_app (a b : list (path * props)) d :
  measure (a ++ b)%list d = measure a d + measure b d.
Proof.
  induction a as [|e r IH]; simpl; [reflexivity|].
  unfold measure in *; simpl; rewrite IH; lia.
Qed.

Lemma measure_rev (a : list (path * props)) d : measure (rev a) d = measure a d.
Proof.
  induction a as [|e r IH]; simpl; [reflexivity|].
  rewrite measure_app, IH; unfold measure; simpl; lia.
Qed.

Lemma measure_upd_disj (p : path) (g : doc -> doc) wl d :
  Forall (fun e => disj p (fst e)) wl -> measure wl (upd_at p g d) = measure wl d.
Proof.
  induction wl as [|e r IH]; intros Hf; simpl; [reflexivity|].
  inversion Hf as [|? ? He Hr]; subst.
  unfold measure in *; simpl; rewrite (IH Hr).
  unfold weight; rewrite get_upd_disj by exact He; reflexivity.
Qed.

Lemma measure_pushed (p : path) (l1 : list (string * doc)) (cs : list (string * props)) d x :
  get_at p d = Some x ->
  measure (map (fun kc => ((p ++ [fst kc])%list, snd kc)) cs) (upd_at p (fun _ => JObj l1) d)
  = fold_right (fun kc n => wsize (PyDict.get (fst kc) l1) + n) 0 cs.
Proof.
  intros Hx; induction cs as [|kc r IH]; simpl; [reflexivity|].
  unfold measure in *; simpl; rewrite IH; f_equal.
  unfold weight; rewrite get_at_app, get_upd_same, Hx; simpl.
  destruct (PyDict.get (fst kc) l1); reflexivity.
Qed.

Lemma wsize_skip (k : string) (v : doc) r (cs : list (string * props)) :
  (forall kc, In kc cs -> fst kc <> k) ->
  fold_right (fun kc n => wsize (PyDict.get (fst kc) ((k, v) :: r)) + n) 0 cs
  = fold_right (fun kc n => wsize (PyDict.get (fst kc) r) + n) 0 cs.
Proof.
  induction cs as [|kc cs' IH]; intros H; [reflexivity|].
  cbn [fold_right].
  rewrite IH by (intros kc' Hi; apply H; right; exact Hi).
  simpl. destruct (String.eqb (fst kc) k) eqn:E; [|reflexivity].
  apply String.eqb_eq in E; exfalso; exact (H kc (or_introl eq_refl) E).
Qed.

Lemma nested_size (schema_d : props) (l : list (string * doc)) :
  NoDup (map fst l) ->
  fold_right (fun kc n => wsize (PyDict.get (fst kc) l) + n) 0 (nested schema_d l)
  <= sum_sizes l.
Proof.
  induction l as [|[k v] r IH]; intros Hnd; [simpl; lia|].
  inversion Hnd as [|? ? Hn Hr]; subst.
  assert (Hk : forall kc, In kc (nested schema_d r) -> fst kc <> k)
    by (intros kc Hi Heq; apply Hn; rewrite <- Heq; exact (nested_keys _ _ _ Hi)).
  specialize (IH Hr).
  rewrite nested_cons; unfold sum_sizes in *.
  destruct (child_props schema_d k v); cbn [fold_right].
  - rewrite (wsize_skip k v r _ Hk); simpl; rewrite String.eqb_refl; simpl; lia.
  - rewrite (wsize_skip k v r _ Hk); simpl; lia.
Qed.

Lemma sum_sizes_filter (f : string * doc -> bool) (l : list (string * doc)) :
  sum_sizes (filter f l) <= sum_sizes l.
Proof.
  induction l as [|kv r IH]; simpl; [lia|].
  unfold sum_sizes in *; destruct (f kv); simpl; lia.
Qed.

(** *** Pending positions stay disjoint *)

Lemma wl_disj_app (a b : list (path * props)) :
  wl_disj a -> wl_disj b ->
  (forall e e', In e a -> In e' b -> disj (fst e) (fst e')) ->
  wl_disj (a ++ b)%list.
Proof.
  induction a as [|e r IH]; intros Ha Hb Hx; simpl; [exact Hb|].
  destruct Ha as [He Hr]; split.
  - apply Forall_app; split; [exact He|].
    apply Forall_forall; intros e' Hi; apply Hx; [left; reflexivity|exact Hi].
  - apply IH; [exact Hr|exact Hb|].
    intros e1 e2 H1 H2; apply Hx; [right; exact H1|exact H2].
Qed.

Lemma wl_disj_rev (a : list (path * props)) : wl_disj a -> wl_disj (rev a).
Proof.
  induction a as [|e r IH]; intros Ha; simpl; [exact I|].
  destruct Ha as [He Hr].
  apply wl_disj_app; [exact (IH Hr)|split; [constructor|exact I]|].
  intros e1 e2 H1 [<-|[]].
  apply disj_sym. rewrite Forall_forall in He; apply He, in_rev; exact H1.
Qed.

Lemma disj_siblings (p : path) (k1 k2 : string) :
  k1 <> k2 -> disj (p ++ [k1])%list (p ++ [k2])%list.
Proof.
  assert (Hgen : forall a b, a <> b -> ~ prefix (p ++ [a])%list (p ++ [b])%list).
  { intros a b Hne [r Hr].
    assert (Hl : length r = 0)
      by (apply (f_equal (@length string)) in Hr; rewrite !length_app in Hr; simpl in Hr; lia).
    destruct r; [|discriminate].
    rewrite app_nil_r in Hr. apply app_inj_tail in Hr as [_ Hr].
    apply Hne; symmetry; exact Hr. }
  intros Hne; split; apply Hgen; [exact Hne|intros Heq; apply Hne; symmetry; exact Heq].
Qed.

Lemma pushed_disj (p : path) (cs : list (string * props)) :
  NoDup (map fst cs) -> wl_disj (map (fun kc => ((p ++ [fst kc])%list, snd kc)) cs).
Proof.
  induction cs as [|kc r IH]; intros Hnd; simpl; [exact I|].
  inversion Hnd as [|? ? Hn Hr]; subst.
  split; [|exact (IH Hr)].
  apply Forall_forall; intros e Hi.
  apply in_map_iff in Hi as (kc' & <- & Hi); simpl.
  apply disj_siblings; intros Heq; apply Hn; rewrite Heq.
  apply in_map; exact Hi.
Qed.

(** *** The loop computes the recursive pruning *)

Lemma run_correct (fuel : nat) :
  forall wl d, doc_wf d = true -> wl_disj wl -> measure wl d <= fuel ->
  run fuel wl d = Some (apply_wl wl d).
Proof.
  induction fuel as [|f IH]; intros wl d Hwf Hdisj Hm.
  - destruct wl as [|[p sp] rest]; [reflexivity|].
    assert (Hw : 1 <= weight p d)
      by (unfold weight; destruct (get_at p d); [apply doc_size_pos|lia]).
    assert (Hm0 : weight p d + measure rest d <= 0) by exact Hm.
    lia.
  - destruct wl as [|[p sp] rest]; [reflexivity|].
    destruct Hdisj as [Hp Hrest].
    assert (Hm' : weight p d + measure rest d <= S f) by exact Hm.
    assert (Hget : get_at p (apply_wl rest d) = get_at p d)
      by (apply get_apply_disj; exact Hp).
    simpl run; unfold step.
    destruct (get_at p d) as [x|] eqn:Hx;
      [destruct x as [| | | | |l]|].
    all: try (rewrite IH by (try exact Hwf; try exact Hrest;
                             unfold weight in Hm'; rewrite ?Hx in Hm';
                             try (pose proof (doc_size_pos (JArr l))); simpl in Hm'; lia);
              f_equal; rewrite apply_wl_cons; simpl fst; simpl snd;
              symmetry; apply upd_at_id; intros y Hy; rewrite Hget in Hy;
              injection Hy as <-; reflexivity).
    + (* a dict: delete, push the nested ones *)
      pose proof (doc_wf_get p d _ Hwf Hx) as Hwfl.
      pose proof (proj1 (proj1 (doc_wf_obj l) Hwfl)) as Hndl.
      rewrite (remove_extra sp l Hndl).
      set (l1 := filter (keep sp) l).
      assert (Hwf1 : doc_wf (JObj l1) = true) by (apply doc_wf_filter; exact Hwfl).
      assert (Hnd1 : NoDup (map fst l1)) by exact (proj1 (proj1 (doc_wf_obj l1) Hwf1)).
      rewrite IH.
      * f_equal.
        rewrite apply_wl_app, apply_wl_upd_comm by exact Hp.
        rewrite <- map_rev, apply_wl_prefix, (apply_level sp l1 Hnd1), apply_wl_cons.
        simpl fst; simpl snd.
        apply upd_at_ext_at; intros y Hy; rewrite Hget in Hy; injection Hy as <-.
        rewrite prune_rec_obj; reflexivity.
      * apply doc_wf_upd; [exact Hwf|intros y _; exact Hwf1].
      * apply wl_disj_app.
        -- apply wl_disj_rev, pushed_disj, nested_nodup; exact Hnd1.
        -- exact Hrest.
        -- intros e e' Hi Hi'.
           apply in_rev, in_map_iff in Hi as (kc & <- & _); simpl.
           apply disj_snoc. rewrite Forall_forall in Hp; exact (Hp e' Hi').
      * rewrite measure_app, measure_rev, (measure_upd_disj p _ rest d Hp).
        rewrite (measure_pushed p l1 _ d _ Hx).
        pose proof (nested_size sp l1 Hnd1).
        assert (sum_sizes l1 <= sum_sizes l) by apply sum_sizes_filter.
        unfold weight in Hm'; rewrite Hx in Hm'; simpl in Hm'.
        fold (sum_sizes l) in Hm'. lia.
    + (* nothing at that position *)
      rewrite IH by (try exact Hwf; try exact Hrest;
                     unfold weight in Hm'; rewrite Hx in Hm'; simpl in Hm'; lia).
      f_equal; rewrite apply_wl_cons; simpl fst; simpl snd.
      symmetry; apply upd_at_id; intros y Hy; rewrite Hget in Hy; discriminate.
Qed.

(** *** The recursive pruning meets the spec *)

Lemma get_level (schema_d : props) (k : string) (l : list (string * doc)) :
  PyDict.get k (level schema_d l) =
  option_map (fun v => match child_props schema_d k v with
                       | Some cp => prune_rec cp v
                       | None => v
                       end) (PyDict.get k l).
Proof.
  induction l as [|[k0 v0] r IH]; simpl; [reflexivity|].
  destruct (String.eqb k k0) eqn:E; [|exact IH].
  apply String.eqb_eq in E; subst; reflexivity.
Qed.

Lemma get_filter_keep (schema_d : props) (k : string) (l : list (string * doc)) :
  PyDict.get k (filter (keep schema_d) l) =
  if PyDict.mem k schema_d then PyDict.get k l else None.
Proof.
  induction l as [|[k0 v0] r IH]; simpl; [destruct (PyDict.mem k schema_d); reflexivity|].
  unfold keep at 1; simpl.
  destruct (String.eqb k k0) eqn:E.
  - apply String.eqb_eq in E; subst k0.
    destruct (PyDict.mem k schema_d); simpl; [rewrite String.eqb_refl; reflexivity|exact IH].
  - destruct (PyDict.mem k0 schema_d); simpl; rewrite ?E; exact IH.
Qed.

Lemma size_in (k : string) (v : doc) (l : list (string * doc)) :
  In (k, v) l -> doc_size v <= sum_sizes l.
Proof.
  induction l as [|kv r IH]; simpl; [contradiction|].
  unfold sum_sizes in *; simpl.
  intros [->|Hi]; simpl; [lia|specialize (IH Hi); lia].
Qed.

Lemma prune_rec_prunes (n : nat) :
  forall (schema_d : props) (l : list (string * doc)),
  sum_sizes l < n -> prunes schema_d (JObj l) (prune_rec schema_d (JObj l)).
Proof.
  induction n as [|n IH]; intros schema_d l Hn; [lia|].
  rewrite prune_rec_obj; apply prunes_obj.
  - unfold level; rewrite map_map; simpl.
    exact (keys_filter (fun k => PyDict.mem k schema_d) l).
  - intros k v' Hg.
    rewrite get_level, get_filter_keep in Hg.
    destruct (PyDict.mem k schema_d); [|discriminate].
    destruct (PyDict.get k l) as [v|] eqn:Hv; [|discriminate].
    simpl in Hg; injection Hg as <-.
    exists v; split; [reflexivity|].
    destruct (child_props schema_d k v) as [cp|] eqn:Hc; [right|left; split; reflexivity].
    exists cp; split; [reflexivity|].
    destruct v as [| | | | |lv]; try discriminate.
    apply IH.
    pose proof (size_in k (JObj lv) l (DictFacts.get_In k _ l Hv)); simpl in H.
    fold (sum_sizes lv) in H; lia.
Qed.

End PruneFacts.

(** C2: on a well-formed dict and a schema with ["properties"], the
    in-place pruning terminates and leaves, at every level it visits,
    exactly the keys that are both in the document and among the schema's
    property names, in their order; it adds no key; each kept key is bound
    to its original value, pruned in turn when it is a dict whose schema
    node has ["properties"], and untouched otherwise. *)
Theorem remove_unknown_properties_prunes (l : list (string * doc)) (schema_d : props) :
  doc_wf (JObj l) = true ->
  exists R, remove_unknown_properties (JObj l) (JSchema (Some schema_d)) = Some R
            /\ prunes schema_d (JObj l) R.
Proof.
  intros Hwf; exists (prune_rec schema_d (JObj l)); split.
  - unfold remove_unknown_properties.
    rewrite PruneFacts.run_correct; [reflexivity|exact Hwf|split; [constructor|exact I]|].
    unfold Aux.measure, Aux.weight; simpl; lia.
  - apply (PruneFacts.prune_rec_prunes (S (Aux.sum_sizes l))); lia.
Qed.

Lemma remove_unknown_properties_prunes_witness :
  doc_wf C2Example.D = true /\
  exists R, remove_unknown_properties C2Example.D (JSchema (Some C2Example.S)) = Some R
            /\ prunes C2Example.S C2Example.D R.
Proof.
  split; [reflexivity|].
  apply remove_unknown_properties_prunes; reflexivity.
Defined.


(* ================================================================== *)
(** * Further properties of the code *)

Module ExtraFacts.
Import Aux.

(** *** Keys of dicts built by assignment *)

Lemma keys_set {V} (k : string) (v : V) d :
  map fst (PyDict.set k v d) = add_key (map fst d) k.
Proof.
  unfold add_key; induction d as [|[k0 v0] r IH]; simpl; [reflexivity|].
  destruct (String.eqb k k0) eqn:E; simpl; [reflexivity|].
  rewrite IH; destruct (existsb (String.eqb k) (map fst r)); reflexivity.
Qed.

Lemma add_key_In (acc : list string) (k x : string) :
  In x (add_key acc k) <-> In x acc \/ k = x.
Proof.
  unfold add_key; destruct (existsb (String.eqb k) acc) eqn:E.
  - split; [intros H; left; exact H|].
    intros [H|<-]; [exact H|].
    apply existsb_exists in E as (k' & Hi & Heq); apply String.eqb_eq in Heq; subst; exact Hi.
  - rewrite in_app_iff; simpl; split; intros [H|H]; try tauto.
Qed.

Lemma fold_add_key_In (ks acc : list string) (x : string) :
  In x (fold_left add_key ks acc) <-> In x acc \/ In x ks.
Proof.
  revert acc; induction ks as [|k r IH]; intros acc; simpl; [tauto|].
  rewrite IH, add_key_In; tauto.
Qed.

Lemma add_key_NoDup (acc : list string) (k : string) :
  NoDup acc -> NoDup (add_key acc k).
Proof.
  intros Hnd; unfold add_key; destruct (existsb (String.eqb k) acc) eqn:E; [exact Hnd|].
  apply NoDup_app; [exact Hnd|constructor; [intros []|constructor]|].
  intros x Hx Hin; destruct Hin as [Hkx|[]]; subst x.
  assert (existsb (String.eqb k) acc = true)
    by (apply existsb_exists; exists k; split; [exact Hx|apply String.eqb_refl]).
  congruence.
Qed.

Lemma fold_add_key_NoDup (ks acc : list string) :
  NoDup acc -> NoDup (fold_left add_key ks acc).
Proof.
  revert acc; induction ks as [|k r IH]; intros acc Hnd; simpl; [exact Hnd|].
  apply IH, add_key_NoDup; exact Hnd.
Qed.

Lemma fold_add_key_nodup_app (ks acc : list string) :
  NoDup (acc ++ ks)%list -> fold_left add_key ks acc = (acc ++ ks)%list.
Proof.
  revert acc; induction ks as [|k r IH]; intros acc Hnd; simpl; [rewrite app_nil_r; reflexivity|].
  assert (Hn : ~ In k acc)
    by (intros Hi; apply (NoDup_remove_2 acc r k Hnd); apply in_or_app; left; exact Hi).
  assert (Ha : add_key acc k = (acc ++ [k])%list).
  { unfold add_key; destruct (existsb (String.eqb k) acc) eqn:E; [|reflexivity].
    apply existsb_exists in E as (k' & Hi & Heq); apply String.eqb_eq in Heq; subst; contradiction. }
  rewrite Ha, IH; [rewrite <- app_assoc; reflexivity|].
  rewrite <- app_assoc; exact Hnd.
Qed.

Lemma keys_dict_of_lists_gen (data : multidict) r :
  map fst
    (fold_left
       (fun (r : list (string * list string)) (kv : string * string) =>
          let '(k, v) := kv in
          match PyDict.get k r with
          | Some vs => PyDict.set k (vs ++ [v])%list r
          | None => PyDict.set k [v] r
          end) data r)
  = fold_left add_key (map fst data) (map fst r).
Proof.
  revert r; induction data as [|[k v] rest IH]; intros r; simpl; [reflexivity|].
  rewrite IH; f_equal.
  destruct (PyDict.get k r); apply keys_set.
Qed.

Lemma combine_keys (s : schema) (data : multidict) :
  map fst (combine_repeated_fields s data) = map fst (dict_of_lists data).
Proof.
  unfold combine_repeated_fields; rewrite map_map; apply map_ext.
  intros [k vs]; destruct (schema_get s k) as [n|]; [destruct (is_sequence (node_typ n))|];
    reflexivity.
Qed.

Lemma set_absent {V} (k : string) (v : V) d :
  PyDict.get k d = None -> PyDict.set k v d = (d ++ [(k, v)])%list.
Proof.
  induction d as [|[k0 v0] r IH]; simpl; [reflexivity|].
  destruct (String.eqb k k0); [discriminate|].
  intros H; rewrite (IH H); reflexivity.
Qed.

Lemma dict_of_lists_distinct_gen (data : multidict) r :
  NoDup (map fst r ++ map fst data)%list ->
  fold_left
    (fun (r : list (string * list string)) (kv : string * string) =>
       let '(k, v) := kv in
       match PyDict.get k r with
       | Some vs => PyDict.set k (vs ++ [v])%list r
       | None => PyDict.set k [v] r
       end) data r
  = (r ++ map (fun kv => (fst kv, [snd kv])) data)%list.
Proof.
  revert r; induction data as [|[k v] rest IH]; intros r Hnd; simpl;
    [rewrite app_nil_r; reflexivity|].
  assert (Hn : ~ In k (map fst r))
    by (intros Hi; apply (NoDup_remove_2 _ _ k Hnd); apply in_or_app; left; exact Hi).
  rewrite (DictFacts.get_None k r Hn), (set_absent k [v] r (DictFacts.get_None k r Hn)).
  rewrite IH; [rewrite <- app_assoc; reflexivity|].
  rewrite map_app, <- app_assoc; exact Hnd.
Qed.

(** *** Merging the messages of an exception *)

Lemma keys_update {V} (d e : list (string * V)) :
  map fst (PyDict.update d e) = fold_left add_key (map fst e) (map fst d).
Proof.
  unfold PyDict.update; revert d; induction e as [|[k v] r IH]; intros d; simpl;
    [reflexivity|].
  rewrite IH, keys_set; reflexivity.
Qed.

Lemma keys_merge (asdict : invalid -> list (string * string)) (cs : list invalid) d0 :
  map fst (fold_left (fun d child => PyDict.update d (asdict child)) cs d0)
  = fold_left add_key (flat_map (fun c => map fst (asdict c)) cs) (map fst d0).
Proof.
  revert d0; induction cs as [|c r IH]; intros d0; simpl; [reflexivity|].
  rewrite IH, keys_update, fold_left_app; reflexivity.
Qed.

Lemma lines_by_key (L : list (string * string)) :
  NoDup (map fst L) ->
  map (fun fe => fst fe ++ ": " ++ snd fe) L
  = map (fun k => k ++ ": " ++ match PyDict.get k L with Some v => v | None => "" end) (map fst L).
Proof.
  induction L as [|[k v] r IH]; intros Hnd; [reflexivity|].
  inversion Hnd as [|? ? Hn Hr]; subst.
  cbn [map fst snd PyDict.get]; rewrite String.eqb_refl; f_equal.
  rewrite (IH Hr); apply map_ext_in; intros k' Hk'.
  destruct (String.eqb k' k) eqn:E; [|reflexivity].
  apply String.eqb_eq in E; subst; contradiction.
Qed.

(** *** Pruning *)

Lemma level_keys (schema_d : props) (L : list (string * doc)) :
  map fst (level schema_d L) = map fst L.
Proof. unfold level; rewrite map_map; apply map_ext; reflexivity. Qed.

Lemma child_props_prune (schema_d : props) (k : string) (v : doc) :
  child_props schema_d k (match child_props schema_d k v with
                          | Some cp => prune_rec cp v
                          | None => v
                          end)
  = child_props schema_d k v.
Proof.
  destruct (child_props schema_d k v) as [cp|] eqn:E; [|exact E].
  destruct v as [| | | | |l]; try (unfold child_props in E; discriminate).
  rewrite PruneFacts.prune_rec_obj; exact E.
Qed.

Lemma size_lt (k : string) (v : doc) (l : list (string * doc)) (n : nat) :
  In (k, v) l -> Prune.doc_size (JObj l) < S n -> Prune.doc_size v < n.
Proof.
  intros Hi Hn; pose proof (PruneFacts.size_in k v l Hi).
  simpl in Hn; fold (sum_sizes l) in Hn; lia.
Qed.

Lemma prune_rec_idem (n : nat) :
  forall (schema_d : props) (d : doc), Prune.doc_size d < n ->
  prune_rec schema_d (prune_rec schema_d d) = prune_rec schema_d d.
Proof.
  induction n as [|n IH]; intros schema_d d Hn; [lia|].
  destruct d as [| | | | |l]; try reflexivity.
  rewrite !PruneFacts.prune_rec_obj; f_equal.
  rewrite (PruneFacts.filter_true (keep schema_d)).
  2:{ intros kv Hi; unfold level in Hi; apply in_map_iff in Hi as (kv0 & <- & Hi).
      apply filter_In in Hi as [_ Hk]; exact Hk. }
  unfold level at 1 2; rewrite map_map; apply map_ext_in; intros [k v] Hi; cbn [fst snd].
  rewrite child_props_prune.
  destruct (child_props schema_d k v) as [cp|]; [|reflexivity].
  f_equal; apply IH.
  apply filter_In in Hi as [Hi _]; exact (size_lt k v l n Hi Hn).
Qed.

Lemma prune_rec_wf (n : nat) :
  forall (schema_d : props) (d : doc), Prune.doc_size d < n ->
  doc_wf d = true -> doc_wf (prune_rec schema_d d) = true.
Proof.
  induction n as [|n IH]; intros schema_d d Hn Hwf; [lia|].
  destruct d as [| | | | |l]; try exact Hwf.
  rewrite PruneFacts.prune_rec_obj.
  apply PruneFacts.doc_wf_obj in Hwf as [Hnd Hall].
  apply PruneFacts.doc_wf_obj; split.
  - rewrite level_keys; apply PruneFacts.nodup_keys_filter; exact Hnd.
  - intros kv Hi; unfold level in Hi; apply in_map_iff in Hi as ([k v] & <- & Hi).
    apply filter_In in Hi as [Hi _]; cbn [fst snd].
    destruct (child_props schema_d k v) as [cp|]; [|exact (Hall _ Hi)].
    apply IH; [exact (size_lt k v l n Hi Hn)|exact (Hall _ Hi)].
Qed.

Lemma remove_unknown_properties_rec (l : list (string * doc)) (schema_d : props) :
  doc_wf (JObj l) = true ->
  remove_unknown_properties (JObj l) (JSchema (Some schema_d)) = Some (prune_rec schema_d (JObj l)).
Proof.
  intros Hwf; unfold remove_unknown_properties.
  rewrite PruneFacts.run_correct; [reflexivity|exact Hwf|split; [constructor|exact I]|].
  unfold measure, weight; simpl; lia.
Qed.

Lemma filter_keep_nil (l : list (string * doc)) : filter (keep []) l = [].
Proof. induction l as [|kv r IH]; [reflexivity|exact IH]. Qed.

Lemma level_flat (schema_d : props) (L : list (string * doc)) :
  flat_props schema_d = true -> level schema_d L = L.
Proof.
  intros Hf; unfold flat_props in Hf; rewrite forallb_forall in Hf.
  induction L as [|[k v] r IH]; [reflexivity|].
  unfold level in *; cbn [map fst snd]; rewrite IH; f_equal.
  assert (Hc : child_props schema_d k v = None).
  { unfold child_props; destruct v; try reflexivity.
    destruct (PyDict.get k schema_d) as [j|] eqn:G; [|reflexivity].
    apply DictFacts.get_In in G; specialize (Hf _ G); cbn [snd] in Hf.
    destruct j as [[cp|]]; [discriminate|reflexivity]. }
  rewrite Hc; reflexivity.
Qed.

(** *** Enumerations *)

Lemma member_eqb_eq (m m' : member) : member_eqb m m' = true -> m = m'.
Proof.
  destruct m as [n v], m' as [n' v']; unfold member_eqb; cbn [mname mvalue].
  intros H; apply andb_prop in H as [H1 H2]; apply String.eqb_eq in H1; subst n'.
  destruct v as [z|s], v' as [z'|s']; simpl in H2; try discriminate.
  - apply Z.eqb_eq in H2; subst; reflexivity.
  - apply String.eqb_eq in H2; subst; reflexivity.
Qed.

End ExtraFacts.

(** X1: the dict [combine_repeated_fields] returns has one key per
    distinct key of the multidict, in the order of first occurrence, and
    no other key. *)
Theorem combine_repeated_fields_keys (s : schema) (data : multidict) :
  map fst (combine_repeated_fields s data) = first_occurrences (map fst data)
  /\ NoDup (map fst (combine_repeated_fields s data))
  /\ (forall k, In k (map fst (combine_repeated_fields s data)) <-> In k (map fst data)).
Proof.
  assert (H : map fst (combine_repeated_fields s data) = first_occurrences (map fst data)).
  { rewrite ExtraFacts.combine_keys; unfold dict_of_lists.
    rewrite ExtraFacts.keys_dict_of_lists_gen; reflexivity. }
  rewrite H; split; [reflexivity|split].
  - apply ExtraFacts.fold_add_key_NoDup; constructor.
  - intros k; unfold first_occurrences; rewrite ExtraFacts.fold_add_key_In; simpl; tauto.
Qed.

(** X2: a multidict without repeated keys becomes the dict of its pairs,
    in order; a field whose node is a Sequence gets the one-element list
    of its value, every other field its value. *)
Theorem combine_repeated_fields_distinct (s : schema) (data : multidict) :
  nodupb (map fst data) = true ->
  combine_repeated_fields s data =
  map (fun kv => (fst kv, match schema_get s (fst kv) with
                          | Some node =>
                            if is_sequence (node_typ node) then CList [snd kv] else CStr (snd kv)
                          | None => CStr (snd kv)
                          end)) data.
Proof.
  intros H; apply EnumFacts.nodupb_NoDup in H.
  unfold combine_repeated_fields, dict_of_lists.
  rewrite (ExtraFacts.dict_of_lists_distinct_gen data []) by exact H.
  simpl; rewrite map_map; apply map_ext; intros [k v]; cbn [fst snd].
  destruct (schema_get s k) as [n|]; [destruct (is_sequence (node_typ n))|]; reflexivity.
Qed.

Lemma combine_repeated_fields_distinct_witness :
  combine_repeated_fields Demo.search_schema [("limit", "5"); ("quote", "foo")]
  = [("limit", CStr "5"); ("quote", CList ["foo"])].
Proof.
  rewrite (combine_repeated_fields_distinct Demo.search_schema [("limit", "5"); ("quote", "foo")])
    by reflexivity.
  reflexivity.
Defined.

(** X3: the message [_colander_exception_msg] builds has one line
    ["<field>: <message>"] per distinct field, the fields of the
    exception's own mapping first and then the new fields of its children
    in order; each field's message is that of the last child reporting
    it, else the exception's own. *)
Theorem colander_exception_msg_lines (asdict : invalid -> list (string * string)) (exc : invalid) :
  (forall e, nodupb (map fst (asdict e)) = true) ->
  colander_exception_msg asdict exc =
  join nl (map (fun k => k ++ ": " ++ match merged_entry asdict exc k with
                                      | Some v => v
                                      | None => ""
                                      end)
               (first_occurrences
                  (map fst (asdict exc) ++ flat_map (fun c => map fst (asdict c)) (inv_children exc))%list)).
Proof.
  intros Hnd; unfold colander_exception_msg.
  assert (Hk : map fst (fold_left (fun d child => PyDict.update d (asdict child))
                                  (inv_children exc) (asdict exc))
               = first_occurrences
                   (map fst (asdict exc) ++ flat_map (fun c => map fst (asdict c)) (inv_children exc))%list).
  { rewrite ExtraFacts.keys_merge; unfold first_occurrences; rewrite fold_left_app.
    rewrite (ExtraFacts.fold_add_key_nodup_app (map fst (asdict exc)) [])
      by (simpl; apply EnumFacts.nodupb_NoDup, Hnd).
    reflexivity. }
  rewrite ExtraFacts.lines_by_key
    by (rewrite Hk; apply ExtraFacts.fold_add_key_NoDup; constructor).
  rewrite Hk; f_equal; apply map_ext; intros k.
  rewrite QueryFacts.merge_get by exact Hnd; reflexivity.
Qed.

Lemma colander_exception_msg_lines_witness :
  colander_exception_msg ExtraExample.asdict ExtraExample.exc
  = "limit: bad limit" ++ nl ++ "offset: bad offset".
Proof.
  rewrite (colander_exception_msg_lines ExtraExample.asdict ExtraExample.exc)
    by (intros e; reflexivity).
  reflexivity.
Defined.

(** X4: pruning is idempotent: on a well-formed dict, running
    [remove_unknown_properties] again on its result, with the same
    schema, leaves the result unchanged. *)
Theorem remove_unknown_properties_idempotent (l : list (string * doc)) (schema_d : props) (R : doc) :
  doc_wf (JObj l) = true ->
  remove_unknown_properties (JObj l) (JSchema (Some schema_d)) = Some R ->
  remove_unknown_properties R (JSchema (Some schema_d)) = Some R.
Proof.
  intros Hwf H.
  rewrite (ExtraFacts.remove_unknown_properties_rec l schema_d Hwf) in H.
  assert (HR : R = prune_rec schema_d (JObj l)) by congruence; subst R.
  pose proof (PruneFacts.prune_rec_obj schema_d l) as Ho.
  assert (Hwf' : doc_wf (prune_rec schema_d (JObj l)) = true)
    by (apply (ExtraFacts.prune_rec_wf (S (Prune.doc_size (JObj l)))); [lia|exact Hwf]).
  rewrite Ho in *.
  rewrite (ExtraFacts.remove_unknown_properties_rec
             (Aux.level schema_d (filter (Aux.keep schema_d) l)) schema_d Hwf').
  rewrite <- Ho; f_equal.
  apply (ExtraFacts.prune_rec_idem (S (Prune.doc_size (JObj l)))); lia.
Qed.

Lemma remove_unknown_properties_idempotent_witness :
  remove_unknown_properties (JObj [("a", JNum 1); ("x", JNum 2)]) (JSchema (Some [("a", JSchema None)]))
    = Some (JObj [("a", JNum 1)])
  /\ remove_unknown_properties (JObj [("a", JNum 1)]) (JSchema (Some [("a", JSchema None)]))
    = Some (JObj [("a", JNum 1)]).
Proof.
  split; [reflexivity|].
  apply (remove_unknown_properties_idempotent [("a", JNum 1); ("x", JNum 2)] [("a", JSchema None)]);
    reflexivity.
Defined.

(** X5: with a schema whose ["properties"] is empty, every key of a
    well-formed dict is deleted: the result is the empty dict. *)
Theorem remove_unknown_properties_empty_schema (l : list (string * doc)) :
  doc_wf (JObj l) = true ->
  remove_unknown_properties (JObj l) (JSchema (Some [])) = Some (JObj []).
Proof.
  intros Hwf; rewrite ExtraFacts.remove_unknown_properties_rec by exact Hwf.
  rewrite PruneFacts.prune_rec_obj, ExtraFacts.filter_keep_nil; reflexivity.
Qed.

Lemma remove_unknown_properties_empty_schema_witness :
  remove_unknown_properties C2Example.D (JSchema (Some [])) = Some (JObj []).
Proof.
  apply remove_unknown_properties_empty_schema; reflexivity.
Defined.

(** X6: when no property of the schema has ["properties"] of its own,
    only the top level of a well-formed dict is pruned: its unknown keys
    are deleted and every kept value, a nested dict included, is left as
    it was. *)
Theorem remove_unknown_properties_flat (l : list (string * doc)) (schema_d : props) :
  doc_wf (JObj l) = true -> flat_props schema_d = true ->
  remove_unknown_properties (JObj l) (JSchema (Some schema_d))
  = Some (JObj (filter (fun kv => PyDict.mem (fst kv) schema_d) l)).
Proof.
  intros Hwf Hf; rewrite ExtraFacts.remove_unknown_properties_rec by exact Hwf.
  rewrite PruneFacts.prune_rec_obj, (ExtraFacts.level_flat schema_d _ Hf); reflexivity.
Qed.

Lemma remove_unknown_properties_flat_witness :
  remove_unknown_properties
    (JObj [("a", JNum 1); ("b", JObj [("z", JNull)]); ("c", JNull)])
    (JSchema (Some [("a", JSchema None); ("b", JSchema None)]))
  = Some (JObj [("a", JNum 1); ("b", JObj [("z", JNull)])]).
Proof.
  apply (remove_unknown_properties_flat
           [("a", JNum 1); ("b", JObj [("z", JNull)]); ("c", JNull)]
           [("a", JSchema None); ("b", JSchema None)]); reflexivity.
Defined.

(** X7: whatever name a token uses, an alias included, the member it
    deserializes to serializes to its canonical name when truthy, and
    that name deserializes back to the same member. *)
Theorem enum_deserialize_canonical (e : enum_cls) (node : schema_node) (tok : string) (m : member) :
  enum_canonical e = true ->
  EnumType.deserialize e node (CStr tok) = Ok (Some m) ->
  member_truthy e m = true ->
  EnumType.serialize e node (AMember m) = mname m
  /\ EnumType.deserialize e node (CStr (mname m)) = Ok (Some m).
Proof.
  intros Hc Hd Ht.
  assert (Hg : PyDict.get tok (member_map e) = Some m).
  { unfold EnumType.deserialize, EnumType.getitem in Hd.
    destruct (PyDict.get tok (member_map e)) as [m0|];
      [injection Hd as Hd; subst; reflexivity|discriminate]. }
  split.
  - unfold EnumType.serialize, EnumType.falsy; rewrite Ht; reflexivity.
  - apply DictFacts.get_In in Hg.
    unfold enum_canonical in Hc; rewrite forallb_forall in Hc.
    specialize (Hc _ Hg); cbn [fst snd] in Hc.
    destruct (PyDict.get (mname m) (member_map e)) as [m'|] eqn:G; [|discriminate].
    apply ExtraFacts.member_eqb_eq in Hc; subst m'.
    unfold EnumType.deserialize, EnumType.getitem; rewrite G; reflexivity.
Qed.

Lemma enum_deserialize_canonical_witness :
  EnumType.serialize ExtraExample.order_alias Flags.flag_node (AMember Demo.asc) = "asc"
  /\ EnumType.deserialize ExtraExample.order_alias Flags.flag_node (CStr "asc") = Ok (Some Demo.asc).
Proof.
  apply (enum_deserialize_canonical ExtraExample.order_alias Flags.flag_node "ascending" Demo.asc);
    reflexivity.
Defined.

(** X8: for a member of a well-formed enum, [serialize] returns the
    empty string exactly when the member is falsy. *)
Theorem enum_serialize_empty_iff (e : enum_cls) (node : schema_node) (m : member) :
  enum_wf e = true -> is_member e m ->
  (EnumType.serialize e node (AMember m) = "" <-> member_truthy e m = false).
Proof.
  intros Hwf Hm.
  assert (Hn : mname m <> "").
  { unfold is_member in Hm; apply DictFacts.get_In in Hm.
    unfold enum_wf in Hwf; apply andb_prop in Hwf as [_ Hf].
    rewrite forallb_forall in Hf; specialize (Hf _ Hm); cbn [fst] in Hf.
    intros E; rewrite E in Hf; discriminate. }
  unfold EnumType.serialize, EnumType.falsy.
  destruct (member_truthy e m) eqn:Ht; simpl; split; intros H.
  - contradiction.
  - discriminate.
  - reflexivity.
  - reflexivity.
Qed.

Lemma enum_serialize_empty_iff_witness :
  member_truthy Flags.flags_enum Flags.ONE = true
  /\ EnumType.serialize Flags.flags_enum Flags.flag_node (AMember Flags.ONE) <> "".
Proof.
  split; [reflexivity|].
  intros H.
  apply (enum_serialize_empty_iff Flags.flags_enum Flags.flag_node Flags.ONE) in H;
    [vm_compute in H; discriminate H|reflexivity|reflexivity].
Defined.
